(** * A shallow embedding of the live pair notifier ([src/main.py])

    The program polls an exchange for its tradable symbols, compares them
    with a baseline kept in [known_pairs.json], sends one Telegram message
    per unseen symbol and rewrites the baseline.

    Modelling conventions.
    - A Python [str] is a Rocq [string] holding its UTF-8 bytes.  Iterating
      over a [str] goes by UTF-8 sequences, that is by characters; what
      [upper] covers of [str.upper] is said where it is defined.
    - Values decoded from JSON are [pyval]s.  JSON [true]/[false] and
      numbers with a fraction or an exponent are not represented.
    - A Python exception is a value of [exn]; code that can raise lives in
      the monad [py].  Every [exn] is a subclass of Python's [Exception],
      so an [except Exception] clause catches all of them.
    - [json.dump] and [json.load] belong to the standard library: the text
      of the baseline file is abstracted to the value it decodes to
      ([Document]) or to [Incomplete] when [json.load] rejects it.
    - Console output ([print]) is not modelled. *)

From Stdlib Require Import ZArith Lia Ascii String List.
From stdpp Require Import gmap strings list pretty sorting.

Set Warnings "-register-all,-clear-no-such-hyp".

Open Scope string_scope.
Open Scope Z_scope.

(** ** Python values and exceptions *)

Inductive pyval :=
| PNone
| PInt (z : Z)
| PStr (s : string)
| PList (l : list pyval)
| PDict (d : list (string * pyval)).

Inductive exn :=
| FileNotFoundError
| OSError
| JSONDecodeError
| AttributeError
| TypeError
| RequestException
| HTTPError.

#[global] Instance exn_eq_dec : EqDecision exn.
Proof. solve_decision. Defined.

Definition py (A : Type) : Type := exn + A.

Definition ok {A} (a : A) : py A := inr a.
Definition raise {A} (e : exn) : py A := inl e.
Definition bind {A B} (m : py A) (k : A → py B) : py B :=
  match m with
  | inl e => inl e
  | inr a => k a
  end.

Notation "'let*' x := m 'in' k" := (bind m (fun x => k))
  (at level 10, x name, m at level 100, k at level 200).

(** [try: ... except Exception: return d] *)
Definition except {A} (m : py A) (d : A) : A :=
  match m with
  | inl _ => d
  | inr a => a
  end.

(** The members of a JSON object as they were written; for a repeated key
    the decoder keeps the last value. *)
Fixpoint dict_get (k : string) (d : list (string * pyval)) : option pyval :=
  match d with
  | [] => None
  | (k', v) :: r =>
      match dict_get k r with
      | Some w => Some w
      | None => if String.eqb k k' then Some v else None
      end
  end.

(** [v.get(k, dflt)]: only a [dict] has the method. *)
Definition py_get (v : pyval) (k : string) (dflt : pyval) : py pyval :=
  match v with
  | PDict d => ok (default dflt (dict_get k d))
  | _ => raise AttributeError
  end.

(** A byte that continues a UTF-8 sequence (10xxxxxx). *)
Definition is_continuation (c : ascii) : bool :=
  let n := N_of_ascii c in ((128 <=? n) && (n <=? 191))%N.

(** The characters of a string: each byte that opens a UTF-8 sequence
    together with the continuation bytes after it. *)
Fixpoint code_points (s : string) : list string :=
  match s with
  | EmptyString => []
  | String c r =>
      match code_points r with
      | String c' t :: ts =>
          if is_continuation c' then String c (String c' t) :: ts
          else String c EmptyString :: String c' t :: ts
      | ts => String c EmptyString :: ts
      end
  end.

Definition chars (s : string) : list pyval := PStr <$> code_points s.

(** The distinct keys of an object, in the order of their first mention. *)
Definition dict_keys (d : list (string * pyval)) : list string :=
  reverse (remove_dups (reverse (d.*1))).

(** [for x in v]: lists give their items, strings their characters,
    dictionaries their keys; [None] and numbers are not iterable. *)
Definition py_iter (v : pyval) : py (list pyval) :=
  match v with
  | PList l => ok l
  | PStr s => ok (chars s)
  | PDict d => ok (PStr <$> dict_keys d)
  | PNone | PInt _ => raise TypeError
  end.

Definition upper_ascii (c : ascii) : ascii :=
  let n := N_of_ascii c in
  if ((97 <=? n) && (n <=? 122))%N then ascii_of_N (n - 32) else c.

(** The characters outside ASCII whose upper case is made of ASCII
    letters only, by their UTF-8 bytes: ı (C4 B1), ſ (C5 BF), ß (C3 9F)
    and the ligatures ﬀ ﬁ ﬂ ﬃ ﬄ ﬅ ﬆ (EF AC 80 to EF AC 86). *)
Definition upper_two (a b : ascii) : option string :=
  match N_of_ascii a, N_of_ascii b with
  | 196, 177 => Some "I"
  | 197, 191 => Some "S"
  | 195, 159 => Some "SS"
  | _, _ => None
  end%N.

Definition upper_three (a b c : ascii) : option string :=
  match N_of_ascii a, N_of_ascii b, N_of_ascii c with
  | 239, 172, 128 => Some "FF"
  | 239, 172, 129 => Some "FI"
  | 239, 172, 130 => Some "FL"
  | 239, 172, 131 => Some "FFI"
  | 239, 172, 132 => Some "FFL"
  | 239, 172, 133 => Some "ST"
  | 239, 172, 134 => Some "ST"
  | _, _, _ => None
  end%N.

(** [s.upper()].  ASCII letters and the ten characters above are mapped as
    Python maps them; any other character is left as it is.  Python maps
    those as well, but always to text that is not plain ASCII, so the
    model and Python agree whenever the result of either is plain ASCII,
    as in the test against TRADING. *)
Fixpoint upper (s : string) : string :=
  match s with
  | EmptyString => EmptyString
  | String a r =>
      match r with
      | EmptyString => String (upper_ascii a) EmptyString
      | String b r2 =>
          match upper_two a b with
          | Some u => u +:+ upper r2
          | None =>
              match r2 with
              | EmptyString => String (upper_ascii a) (upper r)
              | String c r3 =>
                  match upper_three a b c with
                  | Some u => u +:+ upper r3
                  | None => String (upper_ascii a) (upper r)
                  end
              end
          end
      end
  end.

(** [v.upper()]: only a [str] has the method. *)
Definition py_upper (v : pyval) : py string :=
  match v with
  | PStr s => ok (upper s)
  | _ => raise AttributeError
  end.

(** ** Set elements

    What can be a member of a Python [set] here: [None], a number or a
    string.  Lists and dictionaries are unhashable. *)

Inductive hkey :=
| HNone
| HNum (z : Z)
| HStr (s : string).

#[global] Instance hkey_eq_dec : EqDecision hkey.
Proof. solve_decision. Defined.

#[global] Instance hkey_countable : Countable hkey.
Proof.
  refine (inj_countable'
    (λ k, match k with
          | HNone => inl ()
          | HNum z => inr (inl z)
          | HStr s => inr (inr s)
          end)
    (λ c, match c with
          | inl _ => HNone
          | inr (inl z) => HNum z
          | inr (inr s) => HStr s
          end) _).
  by intros [].
Defined.

Definition hash_key (v : pyval) : py hkey :=
  match v with
  | PNone => ok HNone
  | PInt z => ok (HNum z)
  | PStr s => ok (HStr s)
  | PList _ | PDict _ => raise TypeError
  end.

Definition val_of_key (k : hkey) : pyval :=
  match k with
  | HNone => PNone
  | HNum z => PInt z
  | HStr s => PStr s
  end.

Fixpoint hash_keys (l : list pyval) : py (list hkey) :=
  match l with
  | [] => ok []
  | v :: r =>
      let* k := hash_key v in
      let* ks := hash_keys r in
      ok (k :: ks)
  end.

(** [set(l)] *)
Definition py_set (l : list pyval) : py (gset hkey) :=
  let* ks := hash_keys l in
  ok (list_to_set ks).

(** [str(k)], as an f-string renders it. *)
Definition py_str (k : hkey) : string :=
  match k with
  | HNone => "None"
  | HNum z => pretty z
  | HStr s => s
  end.

(** [a < b]: strings compare by code point, numbers by value, and nothing
    else is ordered. *)
Definition py_lt (a b : hkey) : py bool :=
  match a, b with
  | HStr s, HStr t => ok (String.ltb s t)
  | HNum x, HNum y => ok (x <? y)
  | _, _ => raise TypeError
  end.

(** [sorted(l)], a stable sort that only asks [<].  It raises as soon as a
    comparison does. *)
Fixpoint py_insert (x : hkey) (l : list hkey) : py (list hkey) :=
  match l with
  | [] => ok [x]
  | y :: r =>
      let* b := py_lt y x in
      if b then (let* r' := py_insert x r in ok (y :: r'))
      else ok (x :: y :: r)
  end.

Fixpoint py_sorted (l : list hkey) : py (list hkey) :=
  match l with
  | [] => ok []
  | x :: r =>
      let* r' := py_sorted r in
      py_insert x r'
  end.

(** ** Configuration (lines 17-25) *)

Definition environ := string → option string.

(** [os.getenv(name) or dflt]: an unset variable and an empty one both
    give the fallback. *)
Definition getenv_or (e : environ) (name dflt : string) : string :=
  match e name with
  | Some (String c r) => String c r
  | Some EmptyString | None => dflt
  end.

Definition TELEGRAM_BOT_TOKEN (e : environ) : string :=
  getenv_or e "TELEGRAM_BOT_TOKEN" "DEIN_TELEGRAM_BOT_TOKEN_HIER".

Definition TELEGRAM_CHAT_ID (e : environ) : string :=
  getenv_or e "TELEGRAM_CHAT_ID" "DEINE_CHAT_ID_HIER".

(** Seconds. *)
Definition POLL_INTERVAL : Z := 60.

(** ** Listing source (lines 49-59) *)

(** What the GET request can come back with: no answer at all, an answer
    that [raise_for_status] rejects, a body that is not JSON, or a decoded
    body. *)
Inductive http_response :=
| ConnectionFailed
| HttpStatusError
| BodyNotJson
| Body (data : pyval).

(** [s.get("status", "").upper() == "TRADING"] *)
Definition trading (s : pyval) : py bool :=
  let* st := py_get s "status" (PStr "") in
  let* u := py_upper st in
  ok (String.eqb u "TRADING").

(** The list comprehension of line 55: for each item the condition is
    evaluated first, then [s.get("symbol")]. *)
Fixpoint symbols_of (items : list pyval) : py (list pyval) :=
  match items with
  | [] => ok []
  | s :: r =>
      let* b := trading s in
      if b then
        (let* sym := py_get s "symbol" PNone in
         let* rest := symbols_of r in
         ok (sym :: rest))
      else symbols_of r
  end.

Definition try_get_all_pairs (r : http_response) : py (list pyval) :=
  match r with
  | ConnectionFailed => raise RequestException
  | HttpStatusError => raise HTTPError
  | BodyNotJson => raise JSONDecodeError
  | Body data =>
      let* syms := py_get data "symbols" (PList []) in
      let* items := py_iter syms in
      symbols_of items
  end.

Definition get_all_pairs (r : http_response) : list pyval :=
  except (try_get_all_pairs r) [].

(** ** Baseline store (lines 29-46) *)

(** The text in [known_pairs.json]: [Document v] is text that [json.load]
    decodes to [v]; [Incomplete] is text it rejects, such as an empty file
    or output that was cut off. *)
Inductive content :=
| Incomplete
| Document (v : pyval).

(** [Unreadable]: the file exists but opening or reading it raises (no
    permission, a directory, bytes that are not UTF-8). *)
Inductive file_state :=
| Absent
| Unreadable
| Holds (c : content).

Definition try_load (f : file_state) : py (gset hkey) :=
  match f with
  | Absent => raise FileNotFoundError
  | Unreadable => raise OSError
  | Holds Incomplete => raise JSONDecodeError
  | Holds (Document data) =>
      let* pairs := py_get data "pairs" (PList []) in
      let* items := py_iter pairs in
      py_set items
  end.

Definition load_known_pairs (f : file_state) : gset hkey :=
  except (try_load f) ∅.

(** How the disk answers one call of [save_known_pairs]. *)
Inductive disk :=
| DiskOk
| OpenDenied
| WriteFails.

(** [{"pairs": l}] *)
Definition snapshot (l : list hkey) : pyval :=
  PDict [("pairs", PList (val_of_key <$> l))].

(** The contents of the file, one after the other, while
    [save_known_pairs] runs: [open(..., "w")] empties the file before
    [sorted] and [json.dump] are evaluated, and the text only decodes once
    [json.dump] has written all of it.  A process that dies during the
    call leaves one of these behind. *)
Definition save_states (d : disk) (pairs : gset hkey) (f : file_state)
  : list file_state :=
  f ::
  match d with
  | OpenDenied => []
  | DiskOk | WriteFails =>
      Holds Incomplete ::
      match py_sorted (elements pairs), d with
      | inr l, DiskOk => [Holds (Document (snapshot l))]
      | _, _ => []
      end
  end.

(** The exception handler of line 45 swallows every failure, so the call
    returns with the file as the last step left it. *)
Definition save_known_pairs (d : disk) (pairs : gset hkey) (f : file_state)
  : file_state :=
  List.last (save_states d pairs f) f.

(** ** Time *)

(** Days since 1970-01-01 to (year, month, day) in the Gregorian calendar. *)
Definition civil_from_days (days : Z) : Z * Z * Z :=
  let z := days + 719468 in
  let era := z / 146097 in
  let doe := z - era * 146097 in
  let yoe := (doe - doe / 1460 + doe / 36524 - doe / 146096) / 365 in
  let doy := doe - (365 * yoe + yoe / 4 - yoe / 100) in
  let mp := (5 * doy + 2) / 153 in
  let d := doy - (153 * mp + 2) / 5 + 1 in
  let m := if mp <? 10 then mp + 3 else mp - 9 in
  let y := yoe + era * 400 + (if m <=? 2 then 1 else 0) in
  (y, m, d).

Definition pad2 (n : Z) : string :=
  if n <? 10 then "0" +:+ pretty n else pretty n.

(** [time.strftime("%Y-%m-%d %H:%M:%S", time.gmtime(secs))] *)
Definition strftime_gmtime (secs : Z) : string :=
  let '(y, m, d) := civil_from_days (secs / 86400) in
  let r := secs mod 86400 in
  pretty y +:+ "-" +:+ pad2 m +:+ "-" +:+ pad2 d +:+ " " +:+
  pad2 (r / 3600) +:+ ":" +:+ pad2 (r mod 3600 / 60) +:+ ":" +:+ pad2 (r mod 60).

(** ** Detection loop (lines 62-101) *)

(** One call of the Telegram API: the text, the wall clock (milliseconds
    since the epoch) when it was made, and whether the API took it. *)
Record attempt := Attempt {
  text : string;
  at_ms : Z;
  delivered : bool
}.

(** The process: the set held by [monitor_new_pairs], the baseline file,
    the wall clock and every message handed to the sink so far. *)
Record state := State {
  known : gset hkey;
  file : file_state;
  clock : Z;
  outbox : list attempt
}.

(** What the world answers during one pass of the loop: the exchange, the
    time the request took, the fate and the duration of the i-th message
    of the pass, and the disk. *)
Record env := Env {
  response : http_response;
  fetch_ms : nat;
  sink : nat → bool;
  send_ms : nat → nat;
  disk_answer : disk
}.

Definition sleep (ms : Z) (st : state) : state :=
  State (known st) (file st) (clock st + ms) (outbox st).

Definition set_known (k : gset hkey) (st : state) : state :=
  State k (file st) (clock st) (outbox st).

Definition set_file (f : file_state) (st : state) : state :=
  State (known st) f (clock st) (outbox st).

(** Lines 62-66: a refused or failed call is caught inside the function,
    which returns normally either way. *)
Definition send_telegram_message (taken : bool) (took : nat) (t : string)
  (st : state) : state :=
  State (known st) (file st) (clock st + Z.of_nat took)
        (outbox st ++ [Attempt t (clock st) taken]).

Definition nl : string := String (ascii_of_N 10) EmptyString.

(** Line 87. *)
Definition message (p : hkey) (now : string) : string :=
  "🆕 Neues Pair entdeckt: <b>" +:+ py_str p +:+ "</b>" +:+ nl +:+
  "Exchange: Binance" +:+ nl +:+ "Zeit (UTC): " +:+ now.

(** Lines 86-90, the i-th message of the pass being the next one. *)
Fixpoint notify (e : env) (now : string) (i : nat) (ps : list hkey)
  (st : state) : state :=
  match ps with
  | [] => st
  | p :: r =>
      let st1 := send_telegram_message (sink e i) (send_ms e i) (message p now) st in
      notify e now (S i) r (sleep 500 st1)
  end.

(** Lines 77-93: the body of the [try].  Whatever raises here does so
    before anything was sent or changed. *)
Definition try_cycle (e : env) (st : state) : py state :=
  let* all_pairs := py_set (get_all_pairs (response e)) in
  if decide (all_pairs = ∅) then ok st
  else
    let new_pairs := all_pairs ∖ known st in
    if decide (new_pairs = ∅) then ok st
    else
      let now := strftime_gmtime (clock st / 1000) in
      let* ps := py_sorted (elements new_pairs) in
      let st1 := notify e now 0 ps st in
      let st2 := set_known (known st1 ∪ new_pairs) st1 in
      ok (set_file (save_known_pairs (disk_answer e) (known st2) (file st2)) st2).

(** One pass of [while True]: every path ends in one
    [asyncio.sleep(POLL_INTERVAL)]. *)
Definition monitor_cycle (e : env) (st : state) : state :=
  let st0 := sleep (Z.of_nat (fetch_ms e)) st in
  sleep (POLL_INTERVAL * 1000) (except (try_cycle e st0) st0).

Definition startup_text (n : nat) : string :=
  "🤖 Bot gestartet. Überwachung läuft (" +:+ pretty n +:+ " bekannte Paare).".

(** Lines 71-73. *)
Definition monitor_startup (taken : bool) (took : nat) (f : file_state)
  (t0 : Z) : state :=
  let known := load_known_pairs f in
  send_telegram_message taken took (startup_text (size known))
    (State known f t0 []).

(** The loop never ends; its first passes are run against the answers the
    world gives them. *)
Definition monitor_loop (es : list env) (st : state) : state :=
  foldl (λ s e, monitor_cycle e s) st es.

Definition monitor_new_pairs (taken : bool) (took : nat) (f : file_state)
  (t0 : Z) (es : list env) : state :=
  monitor_loop es (monitor_startup taken took f t0).

(** ** Commands (lines 106-111) *)

Definition status_text (n : nat) : string :=
  "📊 Bekannte Paare: " +:+ pretty n +:+ nl +:+
  "Polling-Intervall: " +:+ pretty POLL_INTERVAL +:+ "s".

(** The reply, and the process as the handler leaves it. *)
Definition status_command (st : state) : string * state :=
  let known := load_known_pairs (file st) in
  (status_text (size known), st).

(** ** Start of the process (lines 116-126) *)

Inductive startup_step :=
| Build (token : string)
| AddHandler (command : string)
| CreateTask (chat_id : string)
| Print (line : string)
| RunPolling.

(** [accepts] is the check the Telegram library applies to the token when
    the application is built; a rejected token ends [main] there. *)
Definition main (accepts : string → bool) (e : environ) : list startup_step :=
  Build (TELEGRAM_BOT_TOKEN e) ::
  if accepts (TELEGRAM_BOT_TOKEN e) then
    [AddHandler "start"; AddHandler "status";
     CreateTask (TELEGRAM_CHAT_ID e);
     Print "Bot läuft mit Polling..."; RunPolling]
  else [].

(** ** Vocabulary of the statements *)

(** A Symbol Identifier is a string. *)
Definition is_str (k : hkey) : Prop := ∃ s, k = HStr s.

#[global] Instance is_str_dec k : Decision (is_str k).
Proof.
  refine (match k with HStr s => left _ | _ => right _ end);
    unfold is_str; [intros [? [=]] | intros [? [=]] | by eexists].
Defined.

(** Closed decidable statements are settled by evaluation. *)
Ltac by_decide := apply (bool_decide_unpack _); vm_compute; exact I.

Definition is_digit (c : ascii) : bool :=
  let n := N_of_ascii c in ((48 <=? n) && (n <=? 57))%N.

(** [s] is [n] decimal digits. *)
Definition digits (n : nat) (s : string) : bool :=
  bool_decide (String.length s = n) &&
  forallb is_digit (list_ascii_of_string s).

(** [s] reads YYYY-MM-DD HH:MM:SS. *)
Definition timestamp_shape (s : string) : bool :=
  match list_ascii_of_string s with
  | [y1; y2; y3; y4; s1; m1; m2; s2; d1; d2; s3;
     h1; h2; s4; n1; n2; s5; c1; c2] =>
      forallb is_digit
        [y1; y2; y3; y4; m1; m2; d1; d2; h1; h2; n1; n2; c1; c2] &&
      bool_decide ([s1; s2; s3; s4; s5] = ["-"; "-"; " "; ":"; ":"]%char)
  | _ => false
  end.

(** [f] holds of the [n] integers from [i] on. *)
Fixpoint all_from (n : nat) (i : Z) (f : Z → bool) : bool :=
  match n with
  | O => true
  | S n' => f i && all_from n' (i + 1) f
  end.

(** The calls [notify] makes for [ps] when it starts at time [t] with the
    i-th message of the pass: each call is stamped with the clock at which
    it is made, and the next one follows the call and a pause of 500 ms. *)
Fixpoint batch (e : env) (now : string) (i : nat) (ps : list hkey) (t : Z)
  : list attempt :=
  match ps with
  | [] => []
  | p :: r =>
      Attempt (message p now) t (sink e i) ::
      batch e now (S i) r (t + Z.of_nat (send_ms e i) + 500)
  end.

(** An entry of the exchange's [symbols] array as the comprehension of
    [get_all_pairs] can digest it: an object whose [status], when there is
    one, is a string. *)
Definition descriptor (v : pyval) : Prop :=
  ∃ d, v = PDict d ∧
       (dict_get "status" d = None ∨ ∃ s, dict_get "status" d = Some (PStr s)).

Definition is_unhashable (v : pyval) : Prop :=
  (∃ l, v = PList l) ∨ (∃ d, v = PDict d).

(** States of the baseline file from which nothing can be read: no file,
    no access, text that does not decode, a document that is not an
    object, an object without [pairs], or one whose [pairs] cannot be
    turned into a set. *)
Inductive unusable : file_state → Prop :=
| unusable_absent : unusable Absent
| unusable_unreadable : unusable Unreadable
| unusable_incomplete : unusable (Holds Incomplete)
| unusable_not_object v :
    (∀ d, v ≠ PDict d) → unusable (Holds (Document v))
| unusable_no_pairs d :
    dict_get "pairs" d = None → unusable (Holds (Document (PDict d)))
| unusable_pairs_none d :
    dict_get "pairs" d = Some PNone → unusable (Holds (Document (PDict d)))
| unusable_pairs_number d z :
    dict_get "pairs" d = Some (PInt z) → unusable (Holds (Document (PDict d)))
| unusable_pairs_item d l v :
    dict_get "pairs" d = Some (PList l) → v ∈ l → is_unhashable v →
    unusable (Holds (Document (PDict d))).

(** *** Order of set members *)

Definition is_num (k : hkey) : Prop := ∃ z, k = HNum z.

(** [a] may stand before [b] in a sorted list: [b < a] is defined and false. *)
Definition key_le (a b : hkey) : Prop := py_lt b a = ok false.
Definition key_lt (a b : hkey) : Prop := py_lt a b = ok true.

(** Lists [sorted] accepts (see [py_sorted_sortable]). *)
Definition sortable (l : list hkey) : Prop :=
  (length l ≤ 1)%nat ∨ Forall is_str l ∨ Forall is_num l.

(** *** What a pass announces *)

(** The identifiers a pass announces, in the order of the messages: the
    sorted unseen part of the fetched set, or nothing when the body of
    the [try] raises before the loop. *)
Definition announced (e : env) (st : state) : list hkey :=
  match py_set (get_all_pairs (response e)) with
  | inr A => except (py_sorted (elements (A ∖ known st))) []
  | inl _ => []
  end.

(** The same over a run of passes, each pass starting where the one
    before ended. *)
Fixpoint run_announced (es : list env) (st : state) : list hkey :=
  match es with
  | [] => []
  | e :: r => announced e st ++ run_announced r (monitor_cycle e st)
  end.

(** The time stamp each of these messages carries: that of its pass. *)
Fixpoint run_stamps (es : list env) (st : state) : list string :=
  match es with
  | [] => []
  | e :: r =>
      replicate (length (announced e st))
        (strftime_gmtime ((clock st + Z.of_nat (fetch_ms e)) / 1000)) ++
      run_stamps r (monitor_cycle e st)
  end.

(** The time the first [n] calls of a pass take, pauses included. *)
Fixpoint batch_ms (e : env) (i n : nat) : Z :=
  match n with
  | O => 0
  | S n' => Z.of_nat (send_ms e i) + 500 + batch_ms e (S i) n'
  end.

(** The [status] and the [symbol] of a well-formed entry of the listing. *)
Definition status_of (v : pyval) : string :=
  match v with
  | PDict d => match dict_get "status" d with Some (PStr s) => s | _ => "" end
  | _ => ""
  end.

Definition symbol_of (v : pyval) : pyval :=
  match v with
  | PDict d => default PNone (dict_get "symbol" d)
  | _ => PNone
  end.

(** A pass during which the disk works and the fetch yields strings only. *)
Definition string_pass (e : env) : Prop :=
  disk_answer e = DiskOk ∧
  Forall (λ v, ∃ s, v = PStr s) (get_all_pairs (response e)).

(** Sample data: an entry of the exchange's listing, a listing, and a
    world in which every message is taken at once and the disk works. *)
Definition symbol_entry (name status : string) : pyval :=
  PDict [("symbol", PStr name); ("status", PStr status)].

Definition exchange_info (entries : list pyval) : pyval :=
  PDict [("timezone", PStr "UTC"); ("symbols", PList entries)].

Definition calm (r : http_response) : env :=
  Env r 0 (λ _, true) (λ _, 0%nat) DiskOk.

Definition three_listed : http_response :=
  Body (exchange_info [symbol_entry "BTCUSDT" "TRADING";
                       symbol_entry "ETHUSDT" "TRADING";
                       symbol_entry "LUNAUSDT" "BREAK";
                       symbol_entry "SOLUSDT" "TRADING"]).

(** * Properties *)

(** ** Sorting and sets *)

Lemma py_insert_perm x l l' : py_insert x l = ok l' → l' ≡ₚ x :: l.
Proof.
  revert l'. induction l as [|y r IH]; intros l' H; simpl in H.
  - injection H as <-. done.
  - destruct (py_lt y x) as [?|[]]; simpl in H; try discriminate.
    + destruct (py_insert x r) as [?|r'] eqn:E; simpl in H; try discriminate.
      injection H as <-. rewrite (IH r' eq_refl). apply Permutation_swap.
    + injection H as <-. done.
Qed.

Lemma py_sorted_perm l l' : py_sorted l = ok l' → l' ≡ₚ l.
Proof.
  revert l'. induction l as [|x r IH]; intros l' H; simpl in H.
  - injection H as <-. done.
  - destruct (py_sorted r) as [?|r'] eqn:E; simpl in H; try discriminate.
    apply py_insert_perm in H. rewrite H. f_equiv. by apply IH.
Qed.

Lemma py_insert_strs s l :
  Forall is_str l → ∃ l', py_insert (HStr s) l = ok l'.
Proof.
  induction 1 as [|y r [t ->] _ [r' IH]]; simpl; [by eauto|].
  destruct (String.ltb t s); simpl; [|by eauto].
  rewrite IH. simpl. eauto.
Qed.

Lemma py_sorted_strs l : Forall is_str l → ∃ l', py_sorted l = ok l'.
Proof.
  induction 1 as [|x r [s ->] Hr [r' IH]]; simpl; [by eauto|].
  rewrite IH. simpl. apply py_insert_strs.
  apply py_sorted_perm in IH. by rewrite IH.
Qed.

Lemma py_sorted_set (S : gset hkey) :
  set_Forall is_str S → ∃ l, py_sorted (elements S) = ok l.
Proof.
  intros H. apply py_sorted_strs, Forall_forall. intros k Hk.
  apply H. by apply elem_of_elements.
Qed.

Lemma py_sorted_elements (S : gset hkey) l :
  py_sorted (elements S) = ok l → list_to_set l = S.
Proof.
  intros H. apply py_sorted_perm in H. apply set_eq. intros k.
  by rewrite elem_of_list_to_set, H, elem_of_elements.
Qed.

Lemma hash_keys_val_of_key l : hash_keys (val_of_key <$> l) = ok l.
Proof.
  induction l as [|k r IH]; [done|]. csimpl. rewrite IH. by destruct k.
Qed.

(** ** Baseline store *)

Lemma load_snapshot l :
  load_known_pairs (Holds (Document (snapshot l))) = list_to_set l.
Proof.
  unfold load_known_pairs, try_load, snapshot, py_set. simpl.
  by rewrite hash_keys_val_of_key.
Qed.

Lemma save_known_pairs_ok (S : gset hkey) f l :
  py_sorted (elements S) = ok l →
  save_known_pairs DiskOk S f = Holds (Document (snapshot l)).
Proof. intros H. unfold save_known_pairs, save_states. by rewrite H. Qed.

(** A save that gets as far as [json.dump] on a working disk is read back
    as the set that was saved. *)
Lemma load_after_save (S : gset hkey) f l :
  py_sorted (elements S) = ok l →
  load_known_pairs (save_known_pairs DiskOk S f) = S.
Proof.
  intros Hl. rewrite (save_known_pairs_ok S f l Hl), load_snapshot.
  by apply py_sorted_elements.
Qed.

(** C7. For every set [S] of identifier strings, the empty set included,
    a save of [S] that the disk lets through, followed by a load, gives
    back [S]. *)
Theorem save_load_roundtrip (S : gset hkey) (f : file_state) :
  set_Forall is_str S →
  load_known_pairs (save_known_pairs DiskOk S f) = S.
Proof.
  intros HS. destruct (py_sorted_set S HS) as [l Hl].
  by apply (load_after_save S f l).
Qed.

Lemma save_load_roundtrip_witness :
  load_known_pairs
    (save_known_pairs DiskOk {[HStr "ETHUSDT"; HStr "BTCUSDT"]} Absent)
  = {[HStr "ETHUSDT"; HStr "BTCUSDT"]}.
Proof.
  apply save_load_roundtrip. by_decide.
Defined.

(** C1 (as the code has it). [save_known_pairs] has no temporary file and
    no rename.  When the file cannot be opened nothing happens to it.
    Otherwise the file is emptied first, and only then is the sorted set
    written into it, in place: between the two the file is there and
    does not decode.  So whatever a reader finds during or after a save
    is the previous content, a file that does not decode, or the
    complete new snapshot, and a load at that moment gives what the
    previous content gave, the empty set, or the saved set.  A save of a
    set of strings that runs to completion is read back as that set. *)
Theorem save_in_place (d : disk) (S : gset hkey) (f : file_state) :
  (d = OpenDenied → save_states d S f = [f]) ∧
  (d ≠ OpenDenied →
   ∃ rest, save_states d S f = f :: Holds Incomplete :: rest) ∧
  (∀ l, d = DiskOk → py_sorted (elements S) = ok l →
     save_states d S f =
       [f; Holds Incomplete; Holds (Document (snapshot l))] ∧
     save_known_pairs d S f = Holds (Document (snapshot l)) ∧
     load_known_pairs (save_known_pairs d S f) = S) ∧
  (d = DiskOk → set_Forall is_str S →
   load_known_pairs (save_known_pairs d S f) = S) ∧
  (∀ g, g ∈ save_states d S f →
     (g = f ∨ g = Holds Incomplete ∨
      ∃ l, py_sorted (elements S) = ok l ∧
           g = Holds (Document (snapshot l))) ∧
     (load_known_pairs g = load_known_pairs f ∨ load_known_pairs g = ∅ ∨
      load_known_pairs g = S)).
Proof.
  split; [by intros ->|].
  split; [intros Hd; unfold save_states; destruct d; by eauto|].
  split.
  { intros l -> Hl. unfold save_known_pairs, save_states. rewrite Hl.
    split; [done|]. split; [done|]. simpl. rewrite load_snapshot.
    by apply py_sorted_elements. }
  split.
  { intros -> HS. destruct (py_sorted_set S HS) as [l Hl].
    by apply (load_after_save S f l). }
  intros g Hg.
  assert (g = f ∨ g = Holds Incomplete ∨
          ∃ l, py_sorted (elements S) = ok l ∧
               g = Holds (Document (snapshot l))) as Hcases.
  { unfold save_states in Hg.
    apply elem_of_cons in Hg as [->|Hg]; [by left|].
    destruct d; try (by apply elem_of_nil in Hg);
      apply elem_of_cons in Hg as [->|Hg]; try (by right; left);
      destruct (py_sorted (elements S)) as [?|l] eqn:E;
      try (by apply elem_of_nil in Hg).
    apply list_elem_of_singleton in Hg as ->. right; right. eauto. }
  split; [done|].
  destruct Hcases as [->|[->|(l & Hl & ->)]].
  - by left.
  - right; left. done.
  - right; right. rewrite load_snapshot. by apply py_sorted_elements.
Qed.

Lemma save_in_place_witness :
  let S : gset hkey := {[HStr "ETHUSDT"; HStr "BTCUSDT"]} in
  let f := Holds (Document (snapshot [HStr "BTCUSDT"])) in
  save_states DiskOk S f =
    [f; Holds Incomplete;
     Holds (Document (snapshot [HStr "BTCUSDT"; HStr "ETHUSDT"]))] ∧
  save_known_pairs DiskOk S f =
    Holds (Document (snapshot [HStr "BTCUSDT"; HStr "ETHUSDT"])) ∧
  load_known_pairs (save_known_pairs DiskOk S f) = S.
Proof.
  intros S f.
  destruct (save_in_place DiskOk S f) as (_ & _ & H & _).
  apply H; [reflexivity | by_decide].
Defined.

(** C1 (as the spec has it) fails.  The baseline holds BTCUSDT; while the
    next save is under way the file is there but does not decode, and a
    load at that point gives the empty set, which no save ever wrote.  A
    save that the disk cuts short returns with the file in that state. *)
Lemma save_is_not_atomic :
  let old : gset hkey := {[HStr "BTCUSDT"]} in
  let new : gset hkey := {[HStr "BTCUSDT"; HStr "ETHUSDT"]} in
  let f := save_known_pairs DiskOk old Absent in
  f = Holds (Document (snapshot [HStr "BTCUSDT"])) ∧
  Holds Incomplete ∈ save_states DiskOk new f ∧
  save_known_pairs WriteFails new f = Holds Incomplete ∧
  load_known_pairs (Holds Incomplete) = ∅ ∧
  load_known_pairs (Holds Incomplete) ≠ old ∧
  load_known_pairs (Holds Incomplete) ≠ new.
Proof.
  cbv zeta. split; [by vm_compute|].
  split; [unfold save_states; apply elem_of_cons; right;
          apply elem_of_cons; by left|].
  split; [by vm_compute|].
  split; [done|].
  change (load_known_pairs (Holds Incomplete)) with (∅ : gset hkey).
  split; intros H;
    assert (HStr "BTCUSDT" ∈ (∅ : gset hkey)) as Hin
      by (rewrite H; set_solver);
    set_solver.
Qed.

(** ** Growth of the Known-Set *)

Lemma notify_known e now i ps st : known (notify e now i ps st) = known st.
Proof. revert i st. induction ps as [|p r IH]; intros i st; simpl; [done|]. by rewrite IH. Qed.

Lemma notify_file e now i ps st : file (notify e now i ps st) = file st.
Proof. revert i st. induction ps as [|p r IH]; intros i st; simpl; [done|]. by rewrite IH. Qed.

Lemma try_cycle_known e st st' :
  try_cycle e st = ok st' → known st ⊆ known st'.
Proof.
  unfold try_cycle. destruct (py_set _) as [?|A]; simpl; [done|].
  case_decide; [by intros [= <-]|].
  case_decide; [by intros [= <-]|].
  destruct (py_sorted _) as [?|ps]; simpl; [done|].
  intros [= <-]. simpl. rewrite notify_known. set_solver.
Qed.

Lemma monitor_cycle_known e st : known st ⊆ known (monitor_cycle e st).
Proof.
  unfold monitor_cycle. set (st0 := sleep _ st).
  destruct (try_cycle e st0) as [?|st'] eqn:E; simpl; [done|].
  apply try_cycle_known in E. done.
Qed.

(** C8. Over any run of passes of the loop the set held in memory only
    grows: nothing that was in it leaves it, and its size does not go
    down. *)
Theorem known_only_grows (es : list env) (st : state) :
  known st ⊆ known (monitor_loop es st) ∧
  (size (known st) ≤ size (known (monitor_loop es st)))%nat.
Proof.
  assert (known st ⊆ known (monitor_loop es st)) as H.
  { revert st. induction es as [|e es IH]; intros st; [done|].
    unfold monitor_loop in *. simpl. etrans; [|apply IH].
    apply monitor_cycle_known. }
  split; [done|]. by apply subseteq_size.
Qed.

(** ** One pass of the loop *)

Lemma notify_outbox e now i ps st :
  outbox (notify e now i ps st) = (outbox st ++ batch e now i ps (clock st))%list.
Proof.
  revert i st. induction ps as [|p r IH]; intros i st; simpl.
  - by rewrite app_nil_r.
  - rewrite IH. simpl. by rewrite <- app_assoc.
Qed.

Lemma batch_text e now i ps t :
  text <$> batch e now i ps t = (λ p, message p now) <$> ps.
Proof.
  revert i t. induction ps as [|p r IH]; intros i t; csimpl; [done|].
  by rewrite IH.
Qed.

Lemma batch_delivered e now i ps t j a :
  batch e now i ps t !! j = Some a → delivered a = sink e (i + j).
Proof.
  revert i t j. induction ps as [|p r IH]; intros i t j; simpl; [done|].
  destruct j as [|j]; simpl.
  - intros [= <-]. simpl. by rewrite Nat.add_0_r.
  - intros H. apply IH in H. by rewrite <- Nat.add_succ_comm.
Qed.

Lemma batch_at_ms e now i ps t a :
  a ∈ batch e now i ps t → t ≤ at_ms a.
Proof.
  revert i t. induction ps as [|p r IH]; intros i t; simpl.
  - by intros ?%elem_of_nil.
  - intros [->|H]%elem_of_cons; simpl; [lia|]. apply IH in H. lia.
Qed.

(** What a pass does once the fetch gave the set [A] and the unseen part
    of it could be sorted into [ps]. *)
Lemma try_cycle_new e st A ps :
  py_set (get_all_pairs (response e)) = ok A →
  A ∖ known st ≠ ∅ →
  py_sorted (elements (A ∖ known st)) = ok ps →
  ∃ t,
    try_cycle e st =
    ok (State (known st ∪ A ∖ known st)
              (save_known_pairs (disk_answer e) (known st ∪ A ∖ known st)
                                (file st))
              t
              (outbox st ++
               batch e (strftime_gmtime (clock st / 1000)) 0 ps (clock st))).
Proof.
  intros HA Hnew Hps. unfold try_cycle. rewrite HA. simpl.
  case_decide; [subst A; set_solver|].
  case_decide; [done|]. rewrite Hps. simpl.
  unfold set_file, set_known. simpl.
  rewrite notify_known, notify_file, notify_outbox. eauto.
Qed.

(** A pass that finds nothing unseen, or nothing at all, leaves known set,
    file and outbox as they were. *)
Lemma try_cycle_idle e st A :
  py_set (get_all_pairs (response e)) = ok A →
  A ∖ known st = ∅ →
  try_cycle e st = ok st.
Proof.
  intros HA Hnew. unfold try_cycle. rewrite HA. simpl.
  case_decide; [done|]. case_decide; done.
Qed.

Lemma monitor_cycle_new e st A ps :
  py_set (get_all_pairs (response e)) = ok A →
  A ∖ known st ≠ ∅ →
  py_sorted (elements (A ∖ known st)) = ok ps →
  let t0 := clock st + Z.of_nat (fetch_ms e) in
  known (monitor_cycle e st) = known st ∪ A ∖ known st ∧
  file (monitor_cycle e st) =
    save_known_pairs (disk_answer e) (known st ∪ A ∖ known st) (file st) ∧
  outbox (monitor_cycle e st) =
    (outbox st ++ batch e (strftime_gmtime (t0 / 1000)) 0 ps t0)%list.
Proof.
  intros HA Hnew Hps t0. unfold monitor_cycle.
  destruct (try_cycle_new e (sleep (Z.of_nat (fetch_ms e)) st) A ps)
    as [t Ht]; [done..|].
  rewrite Ht. done.
Qed.

Lemma monitor_cycle_idle e st A :
  py_set (get_all_pairs (response e)) = ok A →
  A ∖ known st = ∅ →
  known (monitor_cycle e st) = known st ∧
  file (monitor_cycle e st) = file st ∧
  outbox (monitor_cycle e st) = outbox st.
Proof.
  intros HA Hnew. unfold monitor_cycle.
  rewrite (try_cycle_idle e (sleep (Z.of_nat (fetch_ms e)) st) A); done.
Qed.

(** The two cases together: with the fetch giving [A] and the unseen
    identifiers sorting into [ps], a pass sends the batch for [ps], adds
    [A] to the known set and, when there was something unseen, saves. *)
Lemma monitor_cycle_spec e st A ps :
  py_set (get_all_pairs (response e)) = ok A →
  py_sorted (elements (A ∖ known st)) = ok ps →
  let t0 := clock st + Z.of_nat (fetch_ms e) in
  known (monitor_cycle e st) = known st ∪ A ∧
  outbox (monitor_cycle e st) =
    (outbox st ++ batch e (strftime_gmtime (t0 / 1000)) 0 ps t0)%list ∧
  ps ≡ₚ elements (A ∖ known st) ∧
  (A ∖ known st ≠ ∅ →
   file (monitor_cycle e st) =
     save_known_pairs (disk_answer e) (known st ∪ A) (file st)) ∧
  (A ∖ known st = ∅ → file (monitor_cycle e st) = file st).
Proof.
  intros HA Hps t0.
  assert (known st ∪ A ∖ known st = known st ∪ A) as HU.
  { apply set_eq. intros k. destruct (decide (k ∈ known st)); set_solver. }
  destruct (decide (A ∖ known st = ∅)) as [Hnew|Hnew].
  - destruct (monitor_cycle_idle e st A HA Hnew) as (Hk & Hf & Ho).
    rewrite Hnew, elements_empty in Hps. injection Hps as <-.
    rewrite Hk, Hf, Ho, <- HU, Hnew, elements_empty. simpl.
    rewrite app_nil_r. repeat split; try done. set_solver.
  - destruct (monitor_cycle_new e st A ps HA Hnew Hps) as (Hk & Hf & Ho).
    rewrite Hk, Hf, Ho, HU. repeat split; try done.
    by apply py_sorted_perm.
Qed.

(** C3 (as the code has it). A pass notifies exactly the identifiers of
    [current − known], one message each, and adds them to the known
    set.  With BTCUSDT and ETHUSDT known and a fetch that returns these
    two and SOLUSDT, one message goes out, for SOLUSDT, and the set in
    memory is then exactly the three.  The file holds exactly the three
    when the disk takes the save; a save that cannot open the file is
    caught and leaves the file as it was. *)
Theorem diff_correctness (e : env) (st : state) :
  let now := strftime_gmtime ((clock st + Z.of_nat (fetch_ms e)) / 1000) in
  let sent := drop (length (outbox st)) (outbox (monitor_cycle e st)) in
  (∀ A ps,
     py_set (get_all_pairs (response e)) = ok A →
     py_sorted (elements (A ∖ known st)) = ok ps →
     ps ≡ₚ elements (A ∖ known st) ∧
     text <$> sent =
       (λ p, "🆕 Neues Pair entdeckt: <b>" +:+ py_str p +:+ "</b>" +:+ nl +:+
             "Exchange: Binance" +:+ nl +:+ "Zeit (UTC): " +:+ now) <$> ps ∧
     known (monitor_cycle e st) = known st ∪ A) ∧
  (known st = {[HStr "BTCUSDT"; HStr "ETHUSDT"]} →
   py_set (get_all_pairs (response e)) =
     ok {[HStr "BTCUSDT"; HStr "ETHUSDT"; HStr "SOLUSDT"]} →
   text <$> sent =
     ["🆕 Neues Pair entdeckt: <b>SOLUSDT</b>" +:+ nl +:+
      "Exchange: Binance" +:+ nl +:+ "Zeit (UTC): " +:+ now] ∧
   known (monitor_cycle e st) =
     {[HStr "BTCUSDT"; HStr "ETHUSDT"; HStr "SOLUSDT"]} ∧
   (disk_answer e = DiskOk →
    file (monitor_cycle e st) =
      Holds (Document
        (snapshot [HStr "BTCUSDT"; HStr "ETHUSDT"; HStr "SOLUSDT"])) ∧
    load_known_pairs (file (monitor_cycle e st)) =
      {[HStr "BTCUSDT"; HStr "ETHUSDT"; HStr "SOLUSDT"]}) ∧
   (disk_answer e = OpenDenied → file (monitor_cycle e st) = file st)).
Proof.
  intros now sent. split.
  - intros A ps HA Hps.
    destruct (monitor_cycle_spec e st A ps HA Hps) as (Hk & Ho & Hp & _).
    split; [done|]. split; [|done].
    unfold sent. rewrite Ho, drop_app_length. apply batch_text.
  - intros Hk HA.
    set (A := {[HStr "BTCUSDT"; HStr "ETHUSDT"; HStr "SOLUSDT"]} : gset hkey) in *.
    assert (A ∖ known st = {[HStr "SOLUSDT"]}) as Hnew
      by (rewrite Hk; by_decide).
    assert (known st ∪ A = A) as HU by (rewrite Hk; by_decide).
    assert (py_sorted (elements (A ∖ known st)) = ok [HStr "SOLUSDT"]) as Hps
      by (rewrite Hnew, elements_singleton; done).
    assert (A ∖ known st ≠ ∅) as Hne.
    { rewrite Hnew. intros H.
      assert (HStr "SOLUSDT" ∈ (∅ : gset hkey)) by (rewrite <- H; set_solver).
      set_solver. }
    destruct (monitor_cycle_spec e st A _ HA Hps) as (Hk' & Ho & _ & Hf & _).
    split; [unfold sent; rewrite Ho, drop_app_length; apply batch_text|].
    split; [by rewrite Hk', HU|].
    rewrite (Hf Hne), HU. split.
    + intros ->.
      rewrite (save_known_pairs_ok A (file st)
                 [HStr "BTCUSDT"; HStr "ETHUSDT"; HStr "SOLUSDT"])
        by by_decide.
      split; [done|]. rewrite load_snapshot. by_decide.
    + by intros ->.
Qed.

Lemma diff_correctness_witness :
  let e := calm three_listed in
  let st := State {[HStr "BTCUSDT"; HStr "ETHUSDT"]} Absent 1700000000600 [] in
  text <$> drop (length (outbox st)) (outbox (monitor_cycle e st)) =
    ["🆕 Neues Pair entdeckt: <b>SOLUSDT</b>" +:+ nl +:+
     "Exchange: Binance" +:+ nl +:+ "Zeit (UTC): 2023-11-14 22:13:20"] ∧
  known (monitor_cycle e st) =
    {[HStr "BTCUSDT"; HStr "ETHUSDT"; HStr "SOLUSDT"]} ∧
  file (monitor_cycle e st) =
    Holds (Document
      (snapshot [HStr "BTCUSDT"; HStr "ETHUSDT"; HStr "SOLUSDT"])) ∧
  load_known_pairs (file (monitor_cycle e st)) =
    {[HStr "BTCUSDT"; HStr "ETHUSDT"; HStr "SOLUSDT"]}.
Proof.
  intros e st. destruct (diff_correctness e st) as [_ H].
  destruct H as (Ht & Hk & Hd & _); [by_decide | by_decide |].
  split; [exact Ht|]. split; [exact Hk|]. apply Hd. reflexivity.
Defined.

(** C3 (as the spec has it) fails.  BTCUSDT and ETHUSDT are known and in
    the file, the fetch returns them and SOLUSDT, and the file cannot be
    opened for writing: the one message for SOLUSDT goes out, and the
    file afterwards still holds the two. *)
Lemma refused_save_leaves_old_snapshot :
  let e := Env three_listed 0 (λ _, true) (λ _, 0%nat) OpenDenied in
  let st := State {[HStr "BTCUSDT"; HStr "ETHUSDT"]}
                  (Holds (Document (snapshot [HStr "BTCUSDT"; HStr "ETHUSDT"])))
                  1700000000600 [] in
  text <$> outbox (monitor_cycle e st) =
    ["🆕 Neues Pair entdeckt: <b>SOLUSDT</b>" +:+ nl +:+
     "Exchange: Binance" +:+ nl +:+ "Zeit (UTC): 2023-11-14 22:13:20"] ∧
  file (monitor_cycle e st) =
    Holds (Document (snapshot [HStr "BTCUSDT"; HStr "ETHUSDT"])) ∧
  load_known_pairs (file (monitor_cycle e st)) =
    {[HStr "BTCUSDT"; HStr "ETHUSDT"]} ∧
  load_known_pairs (file (monitor_cycle e st)) ≠
    {[HStr "BTCUSDT"; HStr "ETHUSDT"; HStr "SOLUSDT"]}.
Proof.
  cbv zeta. split; [vm_compute; reflexivity|].
  split; [vm_compute; reflexivity|]. split; by_decide.
Qed.

(** C6. Whatever the sink does with each message of a pass, refusing one
    or all of them, every unseen identifier still gets its one attempt,
    in the sorted order, the attempt records what the sink did, and all
    of them enter the known set; on a working disk the file then holds
    the enlarged set. *)
Theorem delivery_failure_is_isolated (e : env) (st : state)
  (A : gset hkey) (ps : list hkey) :
  py_set (get_all_pairs (response e)) = ok A →
  A ∖ known st ≠ ∅ →
  py_sorted (elements (A ∖ known st)) = ok ps →
  let now := strftime_gmtime ((clock st + Z.of_nat (fetch_ms e)) / 1000) in
  let sent := drop (length (outbox st)) (outbox (monitor_cycle e st)) in
  ps ≡ₚ elements (A ∖ known st) ∧
  text <$> sent = (λ p, message p now) <$> ps ∧
  (∀ j a, sent !! j = Some a → delivered a = sink e j) ∧
  A ∖ known st ⊆ known (monitor_cycle e st) ∧
  known (monitor_cycle e st) = known st ∪ A ∧
  (disk_answer e = DiskOk → set_Forall is_str (known st ∪ A) →
   load_known_pairs (file (monitor_cycle e st)) = known st ∪ A).
Proof.
  intros HA Hnew Hps now sent.
  destruct (monitor_cycle_spec e st A ps HA Hps) as (Hk & Ho & Hp & Hf & _).
  assert (sent = batch e now 0 ps (clock st + Z.of_nat (fetch_ms e))) as ->.
  { unfold sent. by rewrite Ho, drop_app_length. }
  split; [done|]. split; [apply batch_text|].
  split; [intros j a Hj; by apply batch_delivered in Hj|].
  split; [rewrite Hk; set_solver|]. split; [done|].
  intros Hd HS. rewrite (Hf Hnew), Hd.
  destruct (py_sorted_set _ HS) as [l Hl]. by apply (load_after_save _ _ l).
Qed.

Lemma delivery_failure_is_isolated_witness :
  let e := Env three_listed 0 (λ j, negb (j =? 1)%nat) (λ _, 0%nat) DiskOk in
  let st := State ∅ Absent 1700000000600 [] in
  let sent := drop (length (outbox st)) (outbox (monitor_cycle e st)) in
  text <$> sent =
    (λ p, message p "2023-11-14 22:13:20")
    <$> [HStr "BTCUSDT"; HStr "ETHUSDT"; HStr "SOLUSDT"] ∧
  delivered <$> sent = [true; false; true] ∧
  known (monitor_cycle e st) =
    {[HStr "BTCUSDT"; HStr "ETHUSDT"; HStr "SOLUSDT"]} ∧
  load_known_pairs (file (monitor_cycle e st)) =
    {[HStr "BTCUSDT"; HStr "ETHUSDT"; HStr "SOLUSDT"]}.
Proof.
  intros e st sent.
  destruct (delivery_failure_is_isolated e st
              {[HStr "BTCUSDT"; HStr "ETHUSDT"; HStr "SOLUSDT"]}
              [HStr "BTCUSDT"; HStr "ETHUSDT"; HStr "SOLUSDT"])
    as (_ & Ht & _ & _ & Hk & Hf);
    [by_decide | by_decide | by_decide |].
  split; [exact Ht|]. split; [by vm_compute|].
  split; [rewrite Hk; by_decide|].
  rewrite Hf; [by_decide | done | by_decide].
Defined.

(** ** Time stamps *)

Lemma all_from_spec n i f j :
  all_from n i f = true → i ≤ j < i + Z.of_nat n → f j = true.
Proof.
  revert i. induction n as [|n IH]; intros i H Hj; simpl in H; [lia|].
  apply andb_true_iff in H as [Hi H].
  destruct (decide (j = i)) as [->|]; [done|]. apply (IH (i + 1)); [done|lia].
Qed.

Lemma civil_from_days_bounds days :
  0 ≤ days < 2932897 →
  1000 ≤ fst (fst (civil_from_days days)) ≤ 9999 ∧
  1 ≤ snd (fst (civil_from_days days)) ≤ 12 ∧
  1 ≤ snd (civil_from_days days) ≤ 31.
Proof.
  intros H. unfold civil_from_days. cbn [fst snd].
  repeat match goal with |- context [if ?b then _ else _] => destruct b eqn:? end;
  Z.to_euclidean_division_equations; lia.
Qed.

Lemma pretty_year y : 1000 ≤ y ≤ 9999 → digits 4 (pretty y) = true.
Proof.
  intros H. apply (all_from_spec (Z.to_nat 9000) 1000 (λ y, digits 4 (pretty y))); [|lia].
  by vm_compute.
Qed.

Lemma pad2_digits n : 0 ≤ n ≤ 99 → digits 2 (pad2 n) = true.
Proof.
  intros H. apply (all_from_spec (Z.to_nat 100) 0 (λ n, digits 2 (pad2 n))); [|lia].
  by vm_compute.
Qed.

Lemma digits_2 s :
  digits 2 s = true →
  ∃ a b, s = String a (String b "") ∧ is_digit a = true ∧ is_digit b = true.
Proof.
  destruct s as [|a [|b [|c r]]]; try done.
  unfold digits. simpl. intros H. exists a, b.
  destruct (is_digit a), (is_digit b); done.
Qed.

Lemma digits_4 s :
  digits 4 s = true →
  ∃ a b c d, s = String a (String b (String c (String d ""))) ∧
             is_digit a = true ∧ is_digit b = true ∧
             is_digit c = true ∧ is_digit d = true.
Proof.
  destruct s as [|a [|b [|c [|d [|e r]]]]]; try done.
  unfold digits. simpl. intros H. exists a, b, c, d.
  destruct (is_digit a), (is_digit b), (is_digit c), (is_digit d); done.
Qed.

(** From 1970 to the end of the year 9999 the stamp has the fixed form
    YYYY-MM-DD HH:MM:SS. *)
Lemma strftime_gmtime_shape secs :
  0 ≤ secs < 253402300800 → timestamp_shape (strftime_gmtime secs) = true.
Proof.
  intros H. unfold strftime_gmtime.
  pose proof (civil_from_days_bounds (secs / 86400)) as Hc.
  destruct (civil_from_days (secs / 86400)) as [[y m] d]. cbn [fst snd] in Hc.
  destruct Hc as (Hy & Hm & Hd); [Z.to_euclidean_division_equations; lia|].
  destruct (digits_4 _ (pretty_year y Hy)) as (y1 & y2 & y3 & y4 & -> & ? & ? & ? & ?).
  destruct (digits_2 (pad2 m)) as (m1 & m2 & -> & ? & ?); [apply pad2_digits; lia|].
  destruct (digits_2 (pad2 d)) as (d1 & d2 & -> & ? & ?); [apply pad2_digits; lia|].
  destruct (digits_2 (pad2 (secs `mod` 86400 / 3600))) as (h1 & h2 & -> & ? & ?);
    [apply pad2_digits; Z.to_euclidean_division_equations; lia|].
  destruct (digits_2 (pad2 ((secs `mod` 86400) `mod` 3600 / 60))) as (n1 & n2 & -> & ? & ?);
    [apply pad2_digits; Z.to_euclidean_division_equations; lia|].
  destruct (digits_2 (pad2 ((secs `mod` 86400) `mod` 60))) as (c1 & c2 & -> & ? & ?);
    [apply pad2_digits; Z.to_euclidean_division_equations; lia|].
  unfold timestamp_shape. simpl.
  repeat match goal with H : is_digit _ = true |- _ => rewrite H; clear H end.
  done.
Qed.

(** C5 (as the code has it). The time stamp is taken once per pass, on
    line 85, before the first message is formatted: every message of the
    pass names one unseen identifier, the exchange, and that one stamp,
    however much later the message itself is put together.  Until the
    end of the year 9999 the stamp reads YYYY-MM-DD HH:MM:SS. *)
Theorem timestamp_taken_once (e : env) (st : state)
  (A : gset hkey) (ps : list hkey) (a : attempt) :
  py_set (get_all_pairs (response e)) = ok A →
  py_sorted (elements (A ∖ known st)) = ok ps →
  a ∈ drop (length (outbox st)) (outbox (monitor_cycle e st)) →
  let t0 := clock st + Z.of_nat (fetch_ms e) in
  t0 ≤ at_ms a ∧
  (∃ p, p ∈ A ∖ known st ∧
        text a =
          "🆕 Neues Pair entdeckt: <b>" +:+ py_str p +:+ "</b>" +:+ nl +:+
          "Exchange: Binance" +:+ nl +:+
          "Zeit (UTC): " +:+ strftime_gmtime (t0 / 1000)) ∧
  (0 ≤ t0 < 253402300800000 →
   timestamp_shape (strftime_gmtime (t0 / 1000)) = true).
Proof.
  intros HA Hps Ha t0.
  split; [|split];
    [| | intros Ht0; apply strftime_gmtime_shape;
         Z.to_euclidean_division_equations; lia].
  - destruct (monitor_cycle_spec e st A ps HA Hps) as (_ & Ho & _ & _).
    rewrite Ho, drop_app_length in Ha. fold t0 in Ha.
    by apply batch_at_ms in Ha.
  - destruct (monitor_cycle_spec e st A ps HA Hps) as (_ & Ho & Hp & _).
    rewrite Ho, drop_app_length in Ha. fold t0 in Ha.
    assert (text a ∈ text <$> batch e (strftime_gmtime (t0 / 1000)) 0 ps t0)
      as Ht by (by apply list_elem_of_fmap_2).
    rewrite batch_text in Ht. apply list_elem_of_fmap in Ht as (p & -> & Hin).
    exists p. split; [|done]. by rewrite <- elem_of_elements, <- Hp.
Qed.

Lemma timestamp_taken_once_witness :
  let e := calm three_listed in
  let st := State ∅ Absent 1700000000600 [] in
  let a := Attempt (message (HStr "ETHUSDT") "2023-11-14 22:13:20")
                   1700000001100 true in
  1700000000600 ≤ at_ms a ∧
  (∃ p, p ∈ {[HStr "BTCUSDT"; HStr "ETHUSDT"; HStr "SOLUSDT"]} ∖ known st ∧
        text a =
          "🆕 Neues Pair entdeckt: <b>" +:+ py_str p +:+ "</b>" +:+ nl +:+
          "Exchange: Binance" +:+ nl +:+
          "Zeit (UTC): " +:+ "2023-11-14 22:13:20") ∧
  timestamp_shape "2023-11-14 22:13:20" = true.
Proof.
  intros e st a.
  assert (a ∈ drop (length (outbox st)) (outbox (monitor_cycle e st))) as Ha
    by (vm_compute; apply list_elem_of_further, list_elem_of_here).
  destruct (timestamp_taken_once e st
           {[HStr "BTCUSDT"; HStr "ETHUSDT"; HStr "SOLUSDT"]}
           [HStr "BTCUSDT"; HStr "ETHUSDT"; HStr "SOLUSDT"] a)
    as (H1 & H2 & H3); [by_decide | by_decide | exact Ha |].
  split; [exact H1|]. split; [exact H2|]. apply H3.
  vm_compute. split; [discriminate | reflexivity].
Defined.

(** C5 (as the spec has it) fails.  Three identifiers are new at
    22:13:20.6; the second message is put together half a second later,
    at 22:13:21.1, and still says 22:13:20. *)
Lemma timestamp_is_stale :
  let e := calm three_listed in
  let st := State ∅ Absent 1700000000600 [] in
  ∃ a, outbox (monitor_cycle e st) !! 1%nat = Some a ∧
       at_ms a = 1700000001100 ∧
       strftime_gmtime (at_ms a / 1000) = "2023-11-14 22:13:21" ∧
       text a = message (HStr "ETHUSDT") "2023-11-14 22:13:20" ∧
       text a ≠ message (HStr "ETHUSDT") (strftime_gmtime (at_ms a / 1000)).
Proof.
  eexists. split; [by vm_compute|].
  split; [done|]. split; [by vm_compute|]. split; [done|].
  vm_compute. discriminate.
Qed.

(** ** Loading *)

Lemma hash_keys_unhashable l v :
  v ∈ l → is_unhashable v → ∃ x, hash_keys l = raise x.
Proof.
  intros Hin Hv. induction Hin as [v r|v w r Hin IH]; simpl.
  - destruct Hv as [[? ->]|[? ->]]; simpl; eauto.
  - destruct (hash_key w); simpl; [by eauto|].
    destruct (IH Hv) as [x ->]. simpl. eauto.
Qed.

Lemma unusable_load f : unusable f → load_known_pairs f = ∅.
Proof.
  unfold load_known_pairs.
  destruct 1 as [| | |v Hv|d Hd|d Hd|d z Hd|d l v Hd Hin Hv]; simpl;
    try done; try (by rewrite Hd).
  - destruct v; try done. by destruct (Hv d).
  - rewrite Hd. simpl. unfold py_set.
    by destruct (hash_keys_unhashable l v Hin Hv) as [x ->].
Qed.






(** ** Listing source *)

Lemma trading_descriptor d :
  descriptor (PDict d) →
  ∃ b, trading (PDict d) = ok b ∧
       ∀ s, dict_get "status" d = Some (PStr s) → b = String.eqb (upper s) "TRADING".
Proof.
  intros (d' & [= <-] & [H|[s H]]); unfold trading; simpl; rewrite H; simpl.
  - eexists. split; [done|]. intros s [=].
  - eexists. split; [done|]. by intros ? [= <-].
Qed.

Lemma symbols_of_descriptors items :
  Forall descriptor items →
  ∃ l, symbols_of items = ok l ∧
       ∀ d s, PDict d ∈ items →
              dict_get "status" d = Some (PStr s) → upper s = "TRADING" →
              default PNone (dict_get "symbol" d) ∈ l.
Proof.
  induction 1 as [|v r Hv Hr (l & Hl & IH)]; simpl.
  - exists []. split; [done|]. by intros d s ?%elem_of_nil.
  - destruct Hv as (d0 & -> & Hst).
    destruct (trading_descriptor d0) as (b & Hb & Hbs); [by exists d0|].
    rewrite Hb, Hl. simpl. destruct b; simpl.
    + eexists. split; [done|]. intros d s [[= ->]|Hin]%elem_of_cons Hs Hu.
      * apply list_elem_of_here.
      * apply list_elem_of_further. by eapply IH.
    + exists l. split; [done|]. intros d s [[= ->]|Hin]%elem_of_cons Hs Hu.
      * specialize (Hbs s Hs). rewrite Hu in Hbs. discriminate Hbs.
      * by eapply IH.
Qed.

Lemma hash_keys_elem l ks v :
  hash_keys l = ok ks → v ∈ l → ∃ k, hash_key v = ok k ∧ k ∈ ks.
Proof.
  revert ks. induction l as [|w r IH]; intros ks H Hin; simpl in H.
  - by apply elem_of_nil in Hin.
  - destruct (hash_key w) as [?|k] eqn:Ek; simpl in H; [done|].
    destruct (hash_keys r) as [?|ks'] eqn:Er; simpl in H; [done|].
    injection H as <-. apply elem_of_cons in Hin as [->|Hin].
    + exists k. split; [done|]. apply list_elem_of_here.
    + destruct (IH ks' eq_refl Hin) as (k' & Hk' & Hin').
      exists k'. split; [done|]. by apply list_elem_of_further.
Qed.

(** C9. When the listing is an array of objects and one of them has a
    status that reads TRADING in some mix of upper and lower case but no
    symbol, [get_all_pairs] returns a list with [None] in it, and the set
    the loop makes of that list has a member that is not a string. *)
Theorem get_all_pairs_yields_None (data : pyval) (items : list pyval)
  (d : list (string * pyval)) (s : string) :
  py_get data "symbols" (PList []) = ok (PList items) →
  Forall descriptor items →
  PDict d ∈ items →
  dict_get "status" d = Some (PStr s) →
  upper s = "TRADING" →
  dict_get "symbol" d = None →
  PNone ∈ get_all_pairs (Body data) ∧
  ∀ A, py_set (get_all_pairs (Body data)) = ok A →
       HNone ∈ A ∧ ¬ set_Forall is_str A.
Proof.
  intros Hdata Hitems Hin Hst Hup Hsym.
  destruct (symbols_of_descriptors items Hitems) as (l & Hl & Hmem).
  assert (get_all_pairs (Body data) = l) as ->.
  { unfold get_all_pairs, try_get_all_pairs. rewrite Hdata. simpl.
    by rewrite Hl. }
  assert (PNone ∈ l) as HNl.
  { specialize (Hmem d s Hin Hst Hup). by rewrite Hsym in Hmem. }
  split; [done|]. intros A HA. unfold py_set in HA.
  destruct (hash_keys l) as [?|ks] eqn:Eks; simpl in HA; [done|].
  injection HA as <-.
  destruct (hash_keys_elem l ks PNone Eks HNl) as (k & [= <-] & Hk).
  assert (HNone ∈ (list_to_set ks : gset hkey)) as HA
    by (by apply elem_of_list_to_set).
  split; [done|]. intros HS. by destruct (HS HNone HA).
Qed.

Lemma get_all_pairs_yields_None_witness :
  let data :=
    exchange_info [symbol_entry "BTCUSDT" "TRADING";
                   PDict [("status", PStr "Trading")]] in
  PNone ∈ get_all_pairs (Body data) ∧
  ∀ A, py_set (get_all_pairs (Body data)) = ok A →
       HNone ∈ A ∧ ¬ set_Forall is_str A.
Proof.
  intros data.
  apply (get_all_pairs_yields_None data
           [symbol_entry "BTCUSDT" "TRADING"; PDict [("status", PStr "Trading")]]
           [("status", PStr "Trading")] "Trading");
    try reflexivity.
  - repeat constructor; eexists; (split; [reflexivity|]); right; eexists;
      reflexivity.
  - apply list_elem_of_further, list_elem_of_here.
Defined.

(** ** Status command *)

(** C10. The reply to [/status] is made from the file as it is at that
    moment: its count is the size of what [load_known_pairs] reads, so
    the number of entries of the array a finished save left there, and
    0 when nothing can be read.  The set the loop holds in memory plays
    no part: after a pass that learned identifiers but could not open
    the file, they are in memory and the reply still gives the old
    count.  The handler leaves the process as it found it. *)
Theorem status_reads_the_file (st : state) :
  (status_command st).2 = st ∧
  (status_command st).1 =
    "📊 Bekannte Paare: " +:+ pretty (size (load_known_pairs (file st))) +:+
    nl +:+ "Polling-Intervall: 60s" ∧
  (∀ l, file st = Holds (Document (snapshot l)) → NoDup l →
     (status_command st).1 =
       "📊 Bekannte Paare: " +:+ pretty (length l) +:+
       nl +:+ "Polling-Intervall: 60s") ∧
  (unusable (file st) →
   (status_command st).1 =
     "📊 Bekannte Paare: 0" +:+ nl +:+ "Polling-Intervall: 60s") ∧
  (∀ e A ps l,
     py_set (get_all_pairs (response e)) = ok A →
     py_sorted (elements (A ∖ known st)) = ok ps →
     A ∖ known st ≠ ∅ →
     disk_answer e = OpenDenied →
     file st = Holds (Document (snapshot l)) → NoDup l →
     A ∖ known st ⊆ known (monitor_cycle e st) ∧
     (status_command (monitor_cycle e st)).1 =
       "📊 Bekannte Paare: " +:+ pretty (length l) +:+
       nl +:+ "Polling-Intervall: 60s").
Proof.
  assert (∀ s l, file s = Holds (Document (snapshot l)) → NoDup l →
            (status_command s).1 =
              "📊 Bekannte Paare: " +:+ pretty (length l) +:+
              nl +:+ "Polling-Intervall: 60s") as Hsnap.
  { intros s l Hf Hl. unfold status_command. cbn [fst].
    rewrite Hf, load_snapshot, size_list_to_set by done. reflexivity. }
  split; [done|]. split; [reflexivity|]. split; [apply Hsnap|]. split.
  - intros Hu. unfold status_command. cbn [fst].
    rewrite (unusable_load _ Hu), size_empty. reflexivity.
  - intros e A ps l HA Hps Hnew Hd Hf Hl.
    destruct (monitor_cycle_spec e st A ps HA Hps) as (Hk & _ & _ & Hf' & _).
    split; [rewrite Hk; set_solver|].
    apply Hsnap; [|done]. by rewrite (Hf' Hnew), Hd.
Qed.

Lemma status_reads_the_file_witness :
  let e := Env three_listed 0 (λ _, true) (λ _, 0%nat) OpenDenied in
  let st := State {[HStr "BTCUSDT"]}
                  (Holds (Document (snapshot [HStr "BTCUSDT"])))
                  1700000000600 [] in
  {[HStr "BTCUSDT"; HStr "ETHUSDT"; HStr "SOLUSDT"]} ∖ known st
    ⊆ known (monitor_cycle e st) ∧
  (status_command (monitor_cycle e st)).1 =
    "📊 Bekannte Paare: 1" +:+ nl +:+ "Polling-Intervall: 60s".
Proof.
  intros e st.
  destruct (status_reads_the_file st) as (_ & _ & _ & _ & H).
  apply (H e {[HStr "BTCUSDT"; HStr "ETHUSDT"; HStr "SOLUSDT"]}
           [HStr "ETHUSDT"; HStr "SOLUSDT"] [HStr "BTCUSDT"]);
    [by_decide | by_decide | by_decide | done | done |].
  repeat constructor. by intros ?%elem_of_nil.
Defined.

(** ** Start of the process *)

Lemma getenv_or_nonempty e name dflt : dflt ≠ "" → getenv_or e name dflt ≠ "".
Proof. intros H. unfold getenv_or. by destruct (e name) as [[|c r]|]. Qed.

Lemma getenv_or_missing e name dflt :
  e name = None ∨ e name = Some "" → getenv_or e name dflt = dflt.
Proof. unfold getenv_or. by intros [->| ->]. Qed.

(** C4 (as the code has it). A credential that is unset or empty is
    replaced by a fixed placeholder when the module is loaded, so the
    token and the chat id are never empty.  [main] checks neither and
    prints no diagnostic: once the library has built the application it
    creates the monitoring task, with whatever chat id the configuration
    gave. *)
Theorem missing_credentials_fall_back (accepts : string → bool) (e : environ) :
  TELEGRAM_BOT_TOKEN e ≠ "" ∧
  TELEGRAM_CHAT_ID e ≠ "" ∧
  (e "TELEGRAM_BOT_TOKEN" = None ∨ e "TELEGRAM_BOT_TOKEN" = Some "" →
   TELEGRAM_BOT_TOKEN e = "DEIN_TELEGRAM_BOT_TOKEN_HIER") ∧
  (e "TELEGRAM_CHAT_ID" = None ∨ e "TELEGRAM_CHAT_ID" = Some "" →
   TELEGRAM_CHAT_ID e = "DEINE_CHAT_ID_HIER") ∧
  (accepts (TELEGRAM_BOT_TOKEN e) = true →
   CreateTask (TELEGRAM_CHAT_ID e) ∈ main accepts e) ∧
  (∀ line, Print line ∈ main accepts e → line = "Bot läuft mit Polling...").
Proof.
  split; [by apply getenv_or_nonempty|].
  split; [by apply getenv_or_nonempty|].
  split; [apply getenv_or_missing|]. split; [apply getenv_or_missing|].
  unfold main. split.
  - intros ->. do 3 apply list_elem_of_further. apply list_elem_of_here.
  - intros line Hin. destruct (accepts _);
      repeat (apply elem_of_cons in Hin as [Hin|Hin]; [by simplify_eq|]);
      by apply elem_of_nil in Hin.
Qed.

Lemma missing_credentials_fall_back_witness :
  let unset : environ := λ _, None in
  let accepts : string → bool := λ t, negb (String.eqb t "") in
  TELEGRAM_BOT_TOKEN unset = "DEIN_TELEGRAM_BOT_TOKEN_HIER" ∧
  TELEGRAM_CHAT_ID unset = "DEINE_CHAT_ID_HIER" ∧
  CreateTask (TELEGRAM_CHAT_ID unset) ∈ main accepts unset.
Proof.
  intros unset accepts.
  destruct (missing_credentials_fall_back accepts unset)
    as (_ & _ & Ht & Hc & Hm & _).
  split; [apply Ht; by left|]. split; [apply Hc; by left|].
  apply Hm. reflexivity.
Defined.

(** C4 (as the spec has it) fails.  With neither credential in the
    environment, and a library that turns down only an empty token, [main]
    runs to the end: it creates the monitoring task and its one line of
    output is the ordinary banner. *)
Lemma missing_credentials_start_the_loop :
  main (λ t, negb (String.eqb t "")) (λ _, None) =
    [Build "DEIN_TELEGRAM_BOT_TOKEN_HIER";
     AddHandler "start"; AddHandler "status";
     CreateTask "DEINE_CHAT_ID_HIER";
     Print "Bot läuft mit Polling..."; RunPolling].
Proof. reflexivity. Qed.

(** * Further properties *)

(** ** The order [sorted] puts set members in *)

Lemma ascii_compare_lt a b : Ascii.compare a b = Lt ↔ (N_of_ascii a < N_of_ascii b)%N.
Proof. unfold Ascii.compare. apply N.compare_lt_iff. Qed.

Lemma ascii_compare_refl a : Ascii.compare a a = Eq.
Proof. unfold Ascii.compare. apply N.compare_refl. Qed.

Lemma string_compare_refl s : String.compare s s = Eq.
Proof. induction s as [|a s IH]; simpl; [done|]. by rewrite ascii_compare_refl. Qed.

Lemma string_compare_lt_trans s t u :
  String.compare s t = Lt → String.compare t u = Lt → String.compare s u = Lt.
Proof.
  revert t u. induction s as [|a s IH]; intros [|b t] [|c u]; simpl; try done.
  destruct (Ascii.compare a b) eqn:Eab; try done;
    destruct (Ascii.compare b c) eqn:Ebc; try done.
  - apply Ascii.compare_eq_iff in Eab. apply Ascii.compare_eq_iff in Ebc. subst.
    rewrite ascii_compare_refl. apply IH.
  - apply Ascii.compare_eq_iff in Eab. subst. by rewrite Ebc.
  - apply Ascii.compare_eq_iff in Ebc. subst. by rewrite Eab.
  - apply (proj1 (ascii_compare_lt _ _)) in Eab. apply (proj1 (ascii_compare_lt _ _)) in Ebc.
    assert (Ascii.compare a c = Lt) as -> by (apply (proj2 (ascii_compare_lt _ _)); lia).
    done.
Qed.

Lemma string_ltb_lt s t : String.ltb s t = true ↔ String.compare s t = Lt.
Proof. unfold String.ltb. destruct (String.compare s t); naive_solver. Qed.

Lemma string_ltb_false s t :
  String.ltb t s = false ↔ s = t ∨ String.ltb s t = true.
Proof.
  unfold String.ltb. rewrite (String.compare_antisym s t).
  destruct (String.compare t s) eqn:E; simpl; try naive_solver.
  - apply String.compare_eq_iff in E. naive_solver.
  - split; [done|]. intros [->|?]; [|done]. by rewrite string_compare_refl in E.
Qed.

#[global] Instance key_lt_trans : Transitive key_lt.
Proof.
  intros [|x|s] [|y|t] [|z|u]; unfold key_lt; simpl; try done.
  - intros [= H1%Z.ltb_lt] [= H2%Z.ltb_lt]. f_equal. apply Z.ltb_lt. lia.
  - intros [= H1%string_ltb_lt] [= H2%string_ltb_lt]. f_equal.
    apply string_ltb_lt. by eapply string_compare_lt_trans.
Qed.

Lemma key_lt_irrefl a : ¬ key_lt a a.
Proof.
  destruct a as [|x|s]; unfold key_lt; simpl; try done.
  - intros [= H%Z.ltb_lt]. lia.
  - intros [= H%string_ltb_lt]. by rewrite string_compare_refl in H.
Qed.

Lemma key_le_lt a b : key_le a b ↔ (a = b ∧ a ≠ HNone) ∨ key_lt a b.
Proof.
  destruct a as [|x|s], b as [|y|t]; unfold key_le, key_lt; simpl;
    try naive_solver.
  - split.
    + intros [= H%Z.ltb_ge]. destruct (decide (x = y)) as [->|]; [by left|].
      right. f_equal. apply Z.ltb_lt. lia.
    + intros [[[= ->] _]|[= H%Z.ltb_lt]]; f_equal; apply Z.ltb_ge; lia.
  - split.
    + intros [= H%string_ltb_false]. destruct H as [->|H]; [by left|].
      right. by f_equal.
    + intros [[[= ->] _]|[= H]]; f_equal; apply string_ltb_false; auto.
Qed.

#[global] Instance key_le_trans : Transitive key_le.
Proof.
  intros a b c. rewrite !key_le_lt.
  intros [[-> ?]|H1] [[-> ?]|H2]; eauto. right. by etrans.
Qed.

#[global] Instance key_le_antisym : AntiSymm (=) key_le.
Proof.
  intros a b. rewrite !key_le_lt. intros [[-> ?]|H1] [[? ?]|H2]; try done.
  destruct (key_lt_irrefl a). by etrans.
Qed.

Lemma py_insert_sorted x l l' :
  StronglySorted key_le l → py_insert x l = ok l' → StronglySorted key_le l'.
Proof.
  intros Hl. revert l'. induction Hl as [|y r Hr IH Hy]; intros l' H; simpl in H.
  - injection H as <-. repeat constructor.
  - destruct (py_lt y x) as [?|[]] eqn:E; simpl in H; try done.
    + destruct (py_insert x r) as [?|r'] eqn:Er; simpl in H; try done.
      injection H as <-. constructor; [by apply IH|].
      apply py_insert_perm in Er. rewrite Er. constructor; [|done].
      apply key_le_lt. by right.
    + injection H as <-. constructor; [by constructor|].
      constructor; [done|]. eapply Forall_impl; [done|].
      intros z Hz. by trans y.
Qed.

Lemma py_sorted_sorted l l' : py_sorted l = ok l' → StronglySorted key_le l'.
Proof.
  revert l'. induction l as [|x r IH]; intros l' H; simpl in H.
  - injection H as <-. constructor.
  - destruct (py_sorted r) as [?|r'] eqn:E; simpl in H; try done.
    eapply py_insert_sorted; [|done]. by apply IH.
Qed.

Lemma sorted_strict l :
  NoDup l → StronglySorted key_le l → StronglySorted key_lt l.
Proof.
  induction 1 as [|x l Hx Hl IH]; intros H; [constructor|].
  apply StronglySorted_cons in H as [Hxl H%IH].
  constructor; [done|]. apply Forall_forall. intros y Hy.
  rewrite Forall_forall in Hxl. specialize (Hxl y Hy).
  apply (proj1 (key_le_lt _ _)) in Hxl as [[-> _]|?]; done.
Qed.


Lemma py_lt_kind a b c :
  py_lt a b = ok c → (is_str a ∧ is_str b) ∨ (is_num a ∧ is_num b).
Proof. destruct a, b; simpl; try done; intros _; [right|left]; split; by eexists. Qed.

Lemma py_insert_nums z l :
  Forall is_num l → ∃ l', py_insert (HNum z) l = ok l'.
Proof.
  induction 1 as [|y r [t ->] _ [r' IH]]; simpl; [by eauto|].
  destruct (t <? z); simpl; [|by eauto].
  rewrite IH. simpl. eauto.
Qed.

Lemma py_sorted_nums l : Forall is_num l → ∃ l', py_sorted l = ok l'.
Proof.
  induction 1 as [|x r [s ->] Hr [r' IH]]; simpl; [by eauto|].
  rewrite IH. simpl. apply py_insert_nums.
  apply py_sorted_perm in IH. by rewrite IH.
Qed.

Lemma py_sorted_sortable l : (∃ l', py_sorted l = ok l') ↔ sortable l.
Proof.
  split.
  - intros [l' H]. revert l' H. induction l as [|x r IH]; intros l' H.
    { left. simpl. lia. }
    simpl in H. destruct (py_sorted r) as [?|r'] eqn:Er; simpl in H; [done|].
    pose proof (py_sorted_perm _ _ Er) as Hp.
    destruct r' as [|y r'].
    { apply Permutation_nil in Hp. subst r. left. simpl. lia. }
    simpl in H. destruct (py_lt y x) as [?|b] eqn:E; simpl in H; [done|].
    assert (y ∈ r) as Hy by (rewrite <- Hp; left).
    apply py_lt_kind in E. right.
    destruct (IH _ eq_refl) as [Hlen|[Hs|Hn]].
    + destruct r as [|y' [|??]]; simpl in Hlen; try lia.
      * by apply elem_of_nil in Hy.
      * apply list_elem_of_singleton in Hy as <-.
        destruct E as [[??]|[??]]; [left|right]; by repeat constructor.
    + left. constructor; [|done]. destruct E as [[??]|[Hyn ?]]; [done|].
      rewrite Forall_forall in Hs. destruct (Hs y Hy) as [? ->].
      by destruct Hyn.
    + right. constructor; [|done]. destruct E as [[Hys ?]|[??]]; [|done].
      rewrite Forall_forall in Hn. destruct (Hn y Hy) as [? ->].
      by destruct Hys.
  - intros [Hlen|[Hs|Hn]].
    + destruct l as [|x [|??]]; simpl in Hlen; try lia; simpl; eauto.
    + by apply py_sorted_strs.
    + by apply py_sorted_nums.
Qed.

Lemma py_sorted_raises l e : py_sorted l = raise e → e = TypeError.
Proof.
  assert (∀ x l e, py_insert x l = raise e → e = TypeError) as Hins.
  { intros x l0. induction l0 as [|y r IH]; intros e0 H; simpl in H; [done|].
    destruct (py_lt y x) as [e1|[]] eqn:E; simpl in H.
    - injection H as <-. destruct y, x; cbv [py_lt raise ok] in E; congruence.
    - destruct (py_insert x r) as [e1|?] eqn:Er; simpl in H; [|done].
      injection H as <-. by apply IH.
    - done. }
  revert e. induction l as [|x r IH]; intros e H; simpl in H; [done|].
  destruct (py_sorted r) as [e1|r'] eqn:Er; simpl in H.
  - injection H as <-. by apply IH.
  - by eapply Hins.
Qed.

#[global] Instance sortable_perm : Proper ((≡ₚ) ==> iff) sortable.
Proof.
  intros l1 l2 Hp. unfold sortable. by rewrite Hp.
Qed.

Lemma py_sorted_perm_invariant l1 l2 : l1 ≡ₚ l2 → py_sorted l1 = py_sorted l2.
Proof.
  intros Hp.
  destruct (py_sorted l1) as [e1|r1] eqn:E1, (py_sorted l2) as [e2|r2] eqn:E2.
  - apply py_sorted_raises in E1, E2. by subst.
  - assert (sortable l1) as [r1 H1]%py_sorted_sortable
      by (rewrite Hp; apply py_sorted_sortable; eauto).
    by rewrite H1 in E1.
  - assert (sortable l2) as [r2 H2]%py_sorted_sortable
      by (rewrite <- Hp; apply py_sorted_sortable; eauto).
    by rewrite H2 in E2.
  - f_equal. apply (StronglySorted_unique key_le);
      [by eapply py_sorted_sorted..|].
    apply py_sorted_perm in E1, E2. by rewrite E1, E2.
Qed.




(** ** A pass, whatever the world answers *)

Lemma notify_clock e now i ps st :
  clock (notify e now i ps st) = clock st + batch_ms e i (length ps).
Proof.
  revert i st. induction ps as [|p r IH]; intros i st; simpl; [lia|].
  rewrite IH. simpl. lia.
Qed.

(** Known set, outbox, file and clock after a pass, in terms of what it
    announced. *)
Lemma monitor_cycle_announced e st :
  let t0 := clock st + Z.of_nat (fetch_ms e) in
  let ps := announced e st in
  known (monitor_cycle e st) = known st ∪ list_to_set ps ∧
  outbox (monitor_cycle e st) =
    (outbox st ++ batch e (strftime_gmtime (t0 / 1000)) 0 ps t0)%list ∧
  file (monitor_cycle e st) =
    (if decide (ps = []) then file st
     else save_known_pairs (disk_answer e) (known st ∪ list_to_set ps) (file st)) ∧
  clock (monitor_cycle e st) =
    t0 + batch_ms e 0 (length ps) + POLL_INTERVAL * 1000.
Proof.
  intros t0 ps. unfold ps, announced, monitor_cycle, try_cycle.
  set (st0 := sleep (Z.of_nat (fetch_ms e)) st).
  change (known st0) with (known st).
  destruct (py_set (get_all_pairs (response e))) as [?|A] eqn:HA; simpl.
  { rewrite app_nil_r, union_empty_r_L. repeat split; try done. lia. }
  case_decide as HE.
  { subst A. assert ((∅ : gset hkey) ∖ known st = ∅) as -> by set_solver.
    rewrite elements_empty. simpl.
    rewrite app_nil_r, union_empty_r_L. repeat split; try done. lia. }
  case_decide as HN.
  { rewrite HN, elements_empty. simpl.
    rewrite app_nil_r, union_empty_r_L. repeat split; try done. lia. }
  destruct (py_sorted (elements (A ∖ known st))) as [?|l] eqn:Hl; simpl.
  { rewrite app_nil_r, union_empty_r_L. repeat split; try done. lia. }
  rewrite notify_known, notify_file, notify_outbox, notify_clock. simpl.
  assert (list_to_set l = A ∖ known st) as -> by (by apply py_sorted_elements).
  case_decide as Hnil.
  { subst l. apply py_sorted_perm in Hl. apply Permutation_nil in Hl.
    by apply elements_empty_inv, leibniz_equiv in Hl. }
  repeat split; try done; try (fold t0; lia).
Qed.

(** ** Listing source, further *)



Lemma symbols_of_filter items :
  Forall descriptor items →
  symbols_of items =
    ok (symbol_of <$> filter (λ v, upper (status_of v) = "TRADING") items).
Proof.
  induction 1 as [|v r (d & -> & Hst) _ IH]; [done|].
  rewrite filter_cons. simpl symbols_of. unfold trading, status_of. simpl.
  destruct Hst as [Hs|[s Hs]]; rewrite Hs; simpl.
  - exact IH.
  - destruct (String.eqb_spec (upper s) "TRADING") as [Hu|Hu].
    + rewrite decide_True by done. rewrite IH. done.
    + rewrite decide_False by done. exact IH.
Qed.

(** X1. For a listing whose entries are objects with a string (or no)
    status, [get_all_pairs] returns the [symbol] fields of exactly the
    entries whose status upper-cases to TRADING, in the order of the
    listing ([None] where the field is missing).  Upper-casing is that
    of [str.upper], under which tradıng, with a dotless i, reads
    TRADING too. *)
Theorem get_all_pairs_filters (data : pyval) (items : list pyval) :
  py_get data "symbols" (PList []) = ok (PList items) →
  Forall descriptor items →
  get_all_pairs (Body data) =
    symbol_of <$> filter (λ v, upper (status_of v) = "TRADING") items.
Proof.
  intros Hd Hi. unfold get_all_pairs, try_get_all_pairs. rewrite Hd. simpl.
  by rewrite symbols_of_filter.
Qed.

Lemma get_all_pairs_filters_witness :
  let items := [symbol_entry "BTCUSDT" "TRADING";
                symbol_entry "LUNAUSDT" "BREAK";
                symbol_entry "XUSDT" "tradıng";
                PDict [("status", PStr "trading")]] in
  get_all_pairs (Body (exchange_info items)) =
    symbol_of <$> filter (λ v, upper (status_of v) = "TRADING") items.
Proof.
  intros items. apply get_all_pairs_filters; [reflexivity|].
  repeat constructor; eexists; (split; [reflexivity|]); right; eexists;
    reflexivity.
Defined.

Lemma trading_raises v : ¬ descriptor v → ∃ x, trading v = raise x.
Proof.
  intros Hv. destruct v as [|z|s|l|d]; try (by eexists).
  unfold trading. simpl.
  destruct (dict_get "status" d) as [[|z|s|l|d']|] eqn:E; simpl;
    try (by eexists); destruct Hv; exists d; split; eauto.
Qed.

Lemma symbols_of_raises items v :
  v ∈ items → ¬ descriptor v → ∃ x, symbols_of items = raise x.
Proof.
  intros Hin Hv. induction Hin as [v r|v w r Hin IH]; simpl.
  - destruct (trading_raises v Hv) as [x ->]. simpl. eauto.
  - destruct (trading w) as [?|[]]; simpl; [by eauto| |by auto].
    destruct (py_get w "symbol" PNone); simpl; [by eauto|].
    destruct (IH Hv) as [x ->]. simpl. eauto.
Qed.

(** X2. One entry of the listing that is not an object, or whose status
    is not a string, costs the whole listing: the exception is caught
    and [get_all_pairs] returns the empty list, valid entries included. *)
Theorem get_all_pairs_all_or_nothing (data : pyval) (items : list pyval)
  (v : pyval) :
  py_get data "symbols" (PList []) = ok (PList items) →
  v ∈ items →
  ¬ descriptor v →
  get_all_pairs (Body data) = [].
Proof.
  intros Hd Hin Hv. unfold get_all_pairs, try_get_all_pairs. rewrite Hd. simpl.
  by destruct (symbols_of_raises items v Hin Hv) as [x ->].
Qed.

Lemma get_all_pairs_all_or_nothing_witness :
  get_all_pairs
    (Body (exchange_info [symbol_entry "BTCUSDT" "TRADING"; PStr "oops"])) = [].
Proof.
  apply (get_all_pairs_all_or_nothing _
           [symbol_entry "BTCUSDT" "TRADING"; PStr "oops"] (PStr "oops"));
    [reflexivity | apply list_elem_of_further, list_elem_of_here |].
  intros (d & Hd & _). discriminate Hd.
Defined.

(** ** Passes that change nothing *)


Lemma announced_known e st p : p ∈ announced e st → p ∉ known st.
Proof.
  unfold announced. destruct (py_set _) as [?|A]; [by intros ?%elem_of_nil|].
  destruct (py_sorted _) as [?|l] eqn:E; simpl; [by intros ?%elem_of_nil|].
  apply py_sorted_perm in E. rewrite E, elem_of_elements. set_solver.
Qed.

Lemma announced_NoDup e st : NoDup (announced e st).
Proof.
  unfold announced. destruct (py_set _) as [?|A]; [constructor|].
  destruct (py_sorted _) as [?|l] eqn:E; simpl; [constructor|].
  apply py_sorted_perm in E. rewrite E. apply NoDup_elements.
Qed.

Lemma announced_sorted e st : StronglySorted key_le (announced e st).
Proof.
  unfold announced. destruct (py_set _) as [?|A]; [constructor|].
  destruct (py_sorted _) as [?|l] eqn:E; simpl; [constructor|].
  by eapply py_sorted_sorted.
Qed.

Lemma announced_empty_fetch e st :
  get_all_pairs (response e) = [] → announced e st = [].
Proof.
  intros H. unfold announced. rewrite H. simpl.
  assert ((∅ : gset hkey) ∖ known st = ∅) as -> by set_solver.
  by rewrite elements_empty.
Qed.

Lemma announced_ext e1 e2 st1 st2 :
  response e2 = response e1 → known st2 = known st1 →
  announced e2 st2 = announced e1 st1.
Proof. intros Hr Hk. unfold announced. by rewrite Hr, Hk. Qed.

Lemma announced_again e1 e2 st :
  response e2 = response e1 → announced e2 (monitor_cycle e1 st) = [].
Proof.
  intros Hr. destruct (monitor_cycle_announced e1 st) as (Hk & _).
  unfold announced in *. rewrite Hr, Hk.
  destruct (py_set _) as [?|A]; [done|].
  destruct (py_sorted (elements (A ∖ known st))) as [?|l] eqn:E; simpl.
  - rewrite union_empty_r_L, E. done.
  - rewrite (py_sorted_elements _ _ E).
    assert (A ∖ (known st ∪ A ∖ known st) = ∅) as ->.
    { apply set_eq. intros k. destruct (decide (k ∈ known st)); set_solver. }
    by rewrite elements_empty.
Qed.

Lemma monitor_cycle_silent e st :
  announced e st = [] →
  known (monitor_cycle e st) = known st ∧
  file (monitor_cycle e st) = file st ∧
  outbox (monitor_cycle e st) = outbox st ∧
  clock (monitor_cycle e st) =
    clock st + Z.of_nat (fetch_ms e) + POLL_INTERVAL * 1000.
Proof.
  intros H. destruct (monitor_cycle_announced e st) as (Hk & Ho & Hf & Hc).
  rewrite H in *. simpl in *.
  rewrite Hk, Ho, Hf, Hc, union_empty_r_L, app_nil_r.
  repeat split; try done. lia.
Qed.

(** X3. A pass whose request fails, is answered with an error status or
    with a body that is not JSON, or whose listing yields no symbol at
    all, sends nothing and leaves the known set and the file alone; it
    ends after one polling interval.  An empty answer is never read as
    "everything was delisted". *)
Theorem empty_fetch_skips_pass (e : env) (st : state) :
  response e = ConnectionFailed ∨ response e = HttpStatusError ∨
  response e = BodyNotJson ∨ get_all_pairs (response e) = [] →
  known (monitor_cycle e st) = known st ∧
  file (monitor_cycle e st) = file st ∧
  outbox (monitor_cycle e st) = outbox st ∧
  clock (monitor_cycle e st) =
    clock st + Z.of_nat (fetch_ms e) + POLL_INTERVAL * 1000.
Proof.
  intros H. apply monitor_cycle_silent, announced_empty_fetch.
  by destruct H as [->|[->|[->|?]]].
Qed.

Lemma empty_fetch_skips_pass_witness :
  let st := State {[HStr "BTCUSDT"]} Absent 1700000000600 [] in
  let e := calm HttpStatusError in
  known (monitor_cycle e st) = known st ∧
  file (monitor_cycle e st) = file st ∧
  outbox (monitor_cycle e st) = outbox st ∧
  clock (monitor_cycle e st) =
    clock st + Z.of_nat (fetch_ms e) + POLL_INTERVAL * 1000.
Proof.
  intros st e. apply empty_fetch_skips_pass. right; left. reflexivity.
Defined.

(** X4. When the exchange answers a pass exactly as it answered the one
    before, the second pass sends nothing and touches neither the known
    set nor the file, whether or not the first one could save. *)
Theorem second_pass_is_silent (e1 e2 : env) (st : state) :
  response e2 = response e1 →
  let st1 := monitor_cycle e1 st in
  known (monitor_cycle e2 st1) = known st1 ∧
  file (monitor_cycle e2 st1) = file st1 ∧
  outbox (monitor_cycle e2 st1) = outbox st1.
Proof.
  intros Hr st1.
  destruct (monitor_cycle_silent e2 st1) as (? & ? & ? & _); [|done].
  by apply announced_again.
Qed.

Lemma second_pass_is_silent_witness :
  let st := State ∅ Absent 1700000000600 [] in
  let st1 := monitor_cycle (calm three_listed) st in
  known (monitor_cycle (calm three_listed) st1) = known st1 ∧
  file (monitor_cycle (calm three_listed) st1) = file st1 ∧
  outbox (monitor_cycle (calm three_listed) st1) = outbox st1.
Proof.
  intros st st1.
  apply (second_pass_is_silent (calm three_listed) (calm three_listed) st).
  reflexivity.
Defined.

(** ** Order and canonical form *)

(** X5. The messages of a pass go out in strictly ascending order of
    identifier, so no identifier twice, and only for identifiers that
    were not known when the pass began. *)
Theorem announcements_ascend (e : env) (st : state) :
  let now := strftime_gmtime ((clock st + Z.of_nat (fetch_ms e)) / 1000) in
  StronglySorted key_lt (announced e st) ∧
  (∀ p, p ∈ announced e st → p ∉ known st) ∧
  text <$> drop (length (outbox st)) (outbox (monitor_cycle e st)) =
    (λ p, message p now) <$> announced e st.
Proof.
  intros now. split; [|split].
  - apply sorted_strict; [apply announced_NoDup | apply announced_sorted].
  - apply announced_known.
  - destruct (monitor_cycle_announced e st) as (_ & Ho & _).
    rewrite Ho, drop_app_length. apply batch_text.
Qed.

(** X6. A save of a set of strings on a working disk stores them as a
    strictly ascending array holding exactly the members of the set, and
    that array does not depend on the order in which the set hands out
    its members. *)
Theorem saved_array_is_canonical (S : gset hkey) (f : file_state) :
  set_Forall is_str S →
  ∃ l, save_known_pairs DiskOk S f = Holds (Document (snapshot l)) ∧
       StronglySorted key_lt l ∧
       (∀ k, k ∈ l ↔ k ∈ S) ∧
       ∀ l0, l0 ≡ₚ elements S → py_sorted l0 = ok l.
Proof.
  intros HS. destruct (py_sorted_set S HS) as [l Hl]. exists l.
  pose proof (py_sorted_perm _ _ Hl) as Hp.
  split; [by apply save_known_pairs_ok|]. split; [|split].
  - apply sorted_strict; [|by eapply py_sorted_sorted].
    rewrite Hp. apply NoDup_elements.
  - intros k. by rewrite Hp, elem_of_elements.
  - intros l0 H0. by rewrite (py_sorted_perm_invariant _ _ H0).
Qed.

Lemma saved_array_is_canonical_witness :
  ∃ l, save_known_pairs DiskOk {[HStr "ETHUSDT"; HStr "BTCUSDT"]} Absent =
         Holds (Document (snapshot l)) ∧
       StronglySorted key_lt l ∧
       (∀ k, k ∈ l ↔ k ∈ ({[HStr "ETHUSDT"; HStr "BTCUSDT"]} : gset hkey)) ∧
       ∀ l0, l0 ≡ₚ elements ({[HStr "ETHUSDT"; HStr "BTCUSDT"]} : gset hkey) →
             py_sorted l0 = ok l.
Proof. apply saved_array_is_canonical. by_decide. Defined.

(** ** Members that cannot be compared *)

Lemma two_members_length (l : list hkey) a b :
  a ∈ l → b ∈ l → a ≠ b → (2 ≤ length l)%nat.
Proof.
  intros Ha Hb Hab. destruct l as [|x [|y r]]; simpl; try lia.
  - by apply elem_of_nil in Ha.
  - apply list_elem_of_singleton in Ha, Hb. congruence.
Qed.

Lemma mixed_not_sortable (l : list hkey) a b :
  a ∈ l → b ∈ l → a ≠ b →
  ¬ (is_str a ∧ is_str b) → ¬ (is_num a ∧ is_num b) →
  ∃ x, py_sorted l = raise x.
Proof.
  intros Ha Hb Hab Hs Hn.
  destruct (py_sorted l) as [x|l'] eqn:E; [by eauto|].
  assert (sortable l) as [Hlen|[H|H]] by (apply py_sorted_sortable; eauto).
  - pose proof (two_members_length l a b Ha Hb Hab). lia.
  - rewrite Forall_forall in H. destruct Hs. split; by apply H.
  - rewrite Forall_forall in H. destruct Hn. split; by apply H.
Qed.

(** X7. When the set to be saved has two members that [sorted] cannot
    compare ([None] and anything else, or a number and a string) and
    the file can be opened, the save leaves the file empty: the old
    baseline is gone and the next load gives the empty set. *)
Theorem save_wipes_mixed_set (d : disk) (S : gset hkey) (f : file_state)
  (a b : hkey) :
  a ∈ S → b ∈ S → a ≠ b →
  ¬ (is_str a ∧ is_str b) → ¬ (is_num a ∧ is_num b) →
  d ≠ OpenDenied →
  save_known_pairs d S f = Holds Incomplete ∧
  load_known_pairs (save_known_pairs d S f) = ∅.
Proof.
  intros Ha Hb Hab Hs Hn Hd.
  destruct (mixed_not_sortable (elements S) a b) as [x Hx];
    [by apply elem_of_elements..|done|done|done|].
  assert (save_known_pairs d S f = Holds Incomplete) as ->; [|done].
  unfold save_known_pairs, save_states. rewrite Hx. by destruct d.
Qed.

Lemma save_wipes_mixed_set_witness :
  let f := Holds (Document (snapshot [HStr "BTCUSDT"])) in
  save_known_pairs DiskOk {[HNone; HStr "BTCUSDT"]} f = Holds Incomplete ∧
  load_known_pairs (save_known_pairs DiskOk {[HNone; HStr "BTCUSDT"]} f) = ∅.
Proof.
  intros f.
  apply (save_wipes_mixed_set DiskOk _ f HNone (HStr "BTCUSDT"));
    [by_decide | by_decide | discriminate | | | discriminate].
  - intros [[s Hs] _]. discriminate Hs.
  - intros [[z Hz] _]. discriminate Hz.
Defined.

(** X8. While the fetched set has two unseen members that [sorted]
    cannot compare, every pass fails before its first message: nothing
    is sent, nothing is learned and the file is not written, pass after
    pass, valid new identifiers included. *)
Theorem mixed_listing_blocks_the_loop (es : list env) (st : state)
  (A : gset hkey) (a b : hkey) :
  (∀ e, e ∈ es → py_set (get_all_pairs (response e)) = ok A) →
  a ∈ A ∖ known st → b ∈ A ∖ known st → a ≠ b →
  ¬ (is_str a ∧ is_str b) → ¬ (is_num a ∧ is_num b) →
  known (monitor_loop es st) = known st ∧
  file (monitor_loop es st) = file st ∧
  outbox (monitor_loop es st) = outbox st.
Proof.
  intros Hes Ha Hb Hab Hs Hn. revert st Ha Hb.
  induction es as [|e es IH]; intros st Ha Hb; [done|].
  assert (announced e st = []) as He.
  { unfold announced. rewrite (Hes e) by left. simpl.
    destruct (mixed_not_sortable (elements (A ∖ known st)) a b) as [x ->];
      by rewrite ?elem_of_elements. }
  destruct (monitor_cycle_silent e st He) as (Hk & Hf & Ho & _).
  unfold monitor_loop in *. simpl.
  destruct (IH (λ e' H, Hes e' (list_elem_of_further _ _ _ H)) (monitor_cycle e st))
    as (Hk' & Hf' & Ho'); [by rewrite Hk..|].
  by rewrite Hk', Hf', Ho'.
Qed.

Lemma mixed_listing_blocks_the_loop_witness :
  let e := calm (Body (exchange_info [PDict [("status", PStr "TRADING")];
                                      symbol_entry "NEWUSDT" "TRADING"])) in
  let st := State {[HStr "BTCUSDT"]} Absent 1700000000600 [] in
  known (monitor_loop [e; e] st) = known st ∧
  file (monitor_loop [e; e] st) = file st ∧
  outbox (monitor_loop [e; e] st) = outbox st.
Proof.
  intros e st.
  apply (mixed_listing_blocks_the_loop [e; e] st {[HNone; HStr "NEWUSDT"]}
           HNone (HStr "NEWUSDT"));
    [| by_decide | by_decide | discriminate | | ].
  - intros e' He'.
    repeat (apply elem_of_cons in He' as [->|He']; [by_decide|]).
    by apply elem_of_nil in He'.
  - intros [[s Hs] _]. discriminate Hs.
  - intros [[z Hz] _]. discriminate Hz.
Defined.

(** ** Memory and file *)

Lemma hash_keys_strings l :
  Forall (λ v, ∃ s, v = PStr s) l →
  ∃ ks, hash_keys l = ok ks ∧ Forall is_str ks.
Proof.
  induction 1 as [|v r [s ->] _ (ks & Hks & Hs)]; simpl.
  - exists []. by split.
  - rewrite Hks. simpl. exists (HStr s :: ks). split; [done|].
    constructor; [by eexists|done].
Qed.

Lemma string_pass_fetch e :
  string_pass e →
  ∃ A, py_set (get_all_pairs (response e)) = ok A ∧ set_Forall is_str A.
Proof.
  intros [_ H]. destruct (hash_keys_strings _ H) as (ks & Hks & Hs).
  exists (list_to_set ks). unfold py_set. rewrite Hks. split; [done|].
  intros k Hk%elem_of_list_to_set. rewrite Forall_forall in Hs. by apply Hs.
Qed.

Lemma string_pass_in_sync e st :
  string_pass e →
  set_Forall is_str (known st) →
  load_known_pairs (file st) = known st →
  set_Forall is_str (known (monitor_cycle e st)) ∧
  load_known_pairs (file (monitor_cycle e st)) = known (monitor_cycle e st).
Proof.
  intros He Hs Hsync. destruct (string_pass_fetch e He) as (A & HA & HAs).
  destruct (monitor_cycle_announced e st) as (Hk & _ & Hf & _).
  assert (set_Forall is_str (known st ∪ list_to_set (announced e st))) as Hs'.
  { intros k [?|Hk']%elem_of_union; [by apply Hs|].
    apply elem_of_list_to_set in Hk'. unfold announced in Hk'.
    rewrite HA in Hk'. simpl in Hk'.
    destruct (py_sorted _) as [?|l] eqn:E; simpl in Hk';
      [by apply elem_of_nil in Hk'|].
    apply py_sorted_perm in E. rewrite E, elem_of_elements in Hk'.
    apply HAs. set_solver. }
  rewrite Hk, Hf. split; [done|]. case_decide as Hnil.
  - rewrite Hnil. simpl. by rewrite union_empty_r_L.
  - destruct He as [-> _]. destruct (py_sorted_set _ Hs') as [l Hl].
    by apply (load_after_save _ _ l).
Qed.

(** X9. Started from a baseline of strings, and as long as every fetch
    yields strings only and the disk works, the file decodes to exactly
    the set held in memory after every pass: [/status] reports the size
    of that set, and a restart resumes with it. *)
Theorem baseline_stays_in_sync (taken : bool) (took : nat) (f : file_state)
  (t0 : Z) (es : list env) :
  set_Forall is_str (load_known_pairs f) →
  Forall string_pass es →
  let st := monitor_new_pairs taken took f t0 es in
  load_known_pairs (file st) = known st ∧
  (status_command st).1 = status_text (size (known st)) ∧
  ∀ taken' took' t1,
    known (monitor_startup taken' took' (file st) t1) = known st.
Proof.
  intros Hf Hes st.
  assert (set_Forall is_str (known st) ∧
          load_known_pairs (file st) = known st) as [_ Hsync].
  { unfold st, monitor_new_pairs.
    generalize (monitor_startup taken took f t0)
      (conj Hf (eq_refl (load_known_pairs f))
         : set_Forall is_str (known (monitor_startup taken took f t0)) ∧
           load_known_pairs (file (monitor_startup taken took f t0)) =
           known (monitor_startup taken took f t0)).
    clear st. induction Hes as [|e es He _ IH]; intros s [Hs Hy]; [done|].
    unfold monitor_loop in *. simpl. apply IH.
    by apply string_pass_in_sync. }
  split; [done|]. split.
  - unfold status_command. simpl. by rewrite Hsync.
  - intros. done.
Qed.

Lemma baseline_stays_in_sync_witness :
  let st := monitor_new_pairs true 0 Absent 1700000000600
              [calm three_listed; calm ConnectionFailed] in
  load_known_pairs (file st) = known st ∧
  (status_command st).1 = status_text (size (known st)) ∧
  ∀ taken' took' t1,
    known (monitor_startup taken' took' (file st) t1) = known st.
Proof.
  apply baseline_stays_in_sync; [by_decide|].
  repeat constructor; vm_compute; repeat constructor; eexists; reflexivity.
Defined.

(** ** A run of passes *)

Lemma monitor_loop_cons e es st :
  monitor_loop (e :: es) st = monitor_loop es (monitor_cycle e st).
Proof. done. Qed.

Lemma run_announced_known es st :
  known (monitor_loop es st) = known st ∪ list_to_set (run_announced es st).
Proof.
  revert st. induction es as [|e es IH]; intros st.
  - simpl. by rewrite union_empty_r_L.
  - rewrite monitor_loop_cons, IH. cbn [run_announced].
    destruct (monitor_cycle_announced e st) as (-> & _).
    rewrite list_to_set_app_L. set_solver.
Qed.

Lemma run_stamps_length es st :
  length (run_stamps es st) = length (run_announced es st).
Proof.
  revert st. induction es as [|e es IH]; intros st; [done|].
  cbn [run_stamps run_announced].
  by rewrite !length_app, length_replicate, IH.
Qed.

Lemma monitor_loop_outbox_prefix es st :
  take (length (outbox st)) (outbox (monitor_loop es st)) = outbox st.
Proof.
  revert st. induction es as [|e es IH]; intros st; [by rewrite firstn_all|].
  rewrite monitor_loop_cons.
  destruct (monitor_cycle_announced e st) as (_ & Ho & _).
  specialize (IH (monitor_cycle e st)). rewrite Ho in IH.
  rewrite length_app in IH.
  apply (f_equal (take (length (outbox st)))) in IH.
  rewrite take_take, Nat.min_l in IH by lia.
  by rewrite IH, take_app_length.
Qed.

(** The messages a run adds to the outbox are those of the announced
    identifiers, one each and in that order, each with the stamp of its
    pass. *)
Lemma run_outbox es st :
  text <$> drop (length (outbox st)) (outbox (monitor_loop es st)) =
    zip_with message (run_announced es st) (run_stamps es st).
Proof.
  revert st. induction es as [|e es IH]; intros st.
  { simpl. by rewrite drop_all. }
  rewrite monitor_loop_cons. specialize (IH (monitor_cycle e st)).
  destruct (monitor_cycle_announced e st) as (_ & Ho & _).
  set (now := strftime_gmtime ((clock st + Z.of_nat (fetch_ms e)) / 1000)) in *.
  set (b := batch e now 0 (announced e st) (clock st + Z.of_nat (fetch_ms e))) in *.
  cbn [run_announced run_stamps]. fold now.
  assert (outbox (monitor_loop es (monitor_cycle e st)) =
          (outbox st ++ b) ++
          drop (length (outbox (monitor_cycle e st)))
               (outbox (monitor_loop es (monitor_cycle e st))))%list as Hsplit.
  { rewrite <- Ho. symmetry.
    rewrite <- (monitor_loop_outbox_prefix es (monitor_cycle e st)) at 1.
    apply take_drop. }
  rewrite Hsplit, <- app_assoc, drop_app_length, fmap_app, IH.
  rewrite zip_with_app by (by rewrite length_replicate).
  f_equal. unfold b. rewrite batch_text.
  clear. induction (announced e st) as [|p r IH]; csimpl; [done|]. by f_equal.
Qed.

Lemma run_announced_fresh es st :
  NoDup (run_announced es st) ∧
  ∀ p, p ∈ run_announced es st → p ∉ known st.
Proof.
  revert st. induction es as [|e es IH]; intros st; cbn [run_announced].
  { split; [constructor|]. by intros p ?%elem_of_nil. }
  destruct (IH (monitor_cycle e st)) as [Hnd Hnk].
  destruct (monitor_cycle_announced e st) as (Hk & _).
  split.
  - apply NoDup_app. split; [apply announced_NoDup|]. split; [|done].
    intros p Hp Hp'. apply (Hnk p Hp'). rewrite Hk.
    apply elem_of_union_r. by apply elem_of_list_to_set.
  - intros p [Hp|Hp]%elem_of_app; [by apply announced_known in Hp|].
    intros Hin. apply (Hnk p Hp). rewrite Hk. by apply elem_of_union_l.
Qed.

(** X10. The messages a run of passes adds to the outbox are, one for
    one and in order, those of a list of identifiers in which none
    occurs twice and none was known when the run began. *)
Theorem no_identifier_announced_twice (es : list env) (st : state) :
  text <$> drop (length (outbox st)) (outbox (monitor_loop es st)) =
    zip_with message (run_announced es st) (run_stamps es st) ∧
  length (run_stamps es st) = length (run_announced es st) ∧
  NoDup (run_announced es st) ∧
  ∀ p, p ∈ run_announced es st → p ∉ known st.
Proof.
  split; [apply run_outbox|]. split; [apply run_stamps_length|].
  apply run_announced_fresh.
Qed.

(** X11. What the loop has learned after a run is exactly what it put
    into messages: the known set is the one it started with plus the
    identifiers of the messages the run added to the outbox, each of
    which carries the stamp of the pass it was sent in. *)
Theorem learned_means_announced (es : list env) (st : state) :
  known (monitor_loop es st) = known st ∪ list_to_set (run_announced es st) ∧
  text <$> drop (length (outbox st)) (outbox (monitor_loop es st)) =
    zip_with message (run_announced es st) (run_stamps es st) ∧
  length (run_stamps es st) = length (run_announced es st) ∧
  (∀ e r, es = e :: r →
     take (length (announced e st)) (run_stamps es st) =
       replicate (length (announced e st))
         (strftime_gmtime ((clock st + Z.of_nat (fetch_ms e)) / 1000)) ∧
     drop (length (announced e st)) (run_stamps es st) =
       run_stamps r (monitor_cycle e st)).
Proof.
  split; [apply run_announced_known|]. split; [apply run_outbox|].
  split; [apply run_stamps_length|].
  intros e r ->. cbn [run_stamps].
  rewrite take_app_length', drop_app_length' by (by rewrite length_replicate).
  done.
Qed.

(** X12. Let the file agree with the set in memory, and let a pass be
    unable to open the file for writing: the file stays as it was.  On
    the same listing the running process then sends nothing more, but a
    process restarted from that file sends the messages of that pass
    once again, for the same identifiers in the same order. *)
Theorem restart_after_refused_save_repeats (e1 e2 : env) (st : state)
  (taken : bool) (took : nat) (t1 : Z) :
  load_known_pairs (file st) = known st →
  disk_answer e1 = OpenDenied →
  response e2 = response e1 →
  let st1 := monitor_cycle e1 st in
  let st2 := monitor_startup taken took (file st1) t1 in
  let now1 := strftime_gmtime ((clock st + Z.of_nat (fetch_ms e1)) / 1000) in
  let now2 := strftime_gmtime ((clock st2 + Z.of_nat (fetch_ms e2)) / 1000) in
  file st1 = file st ∧
  outbox (monitor_cycle e2 st1) = outbox st1 ∧
  text <$> drop (length (outbox st)) (outbox st1) =
    (λ p, message p now1) <$> announced e1 st ∧
  text <$> drop (length (outbox st2)) (outbox (monitor_cycle e2 st2)) =
    (λ p, message p now2) <$> announced e1 st.
Proof.
  intros Hsync Hd Hr st1 st2 now1 now2.
  assert (file st1 = file st) as Hf.
  { unfold st1. destruct (monitor_cycle_announced e1 st) as (_ & _ & -> & _).
    case_decide; [done|]. by rewrite Hd. }
  split; [done|]. split; [|split].
  - destruct (monitor_cycle_silent e2 st1) as (_ & _ & Ho & _); [|done].
    by apply announced_again.
  - unfold st1. destruct (monitor_cycle_announced e1 st) as (_ & -> & _).
    rewrite drop_app_length. apply batch_text.
  - assert (announced e2 st2 = announced e1 st) as Ha.
    { apply announced_ext; [done|].
      change (known st2) with (load_known_pairs (file st1)). by rewrite Hf. }
    destruct (monitor_cycle_announced e2 st2) as (_ & -> & _).
    rewrite drop_app_length, batch_text. by rewrite Ha.
Qed.

Lemma restart_after_refused_save_repeats_witness :
  let st := State {[HStr "BTCUSDT"]}
                  (Holds (Document (snapshot [HStr "BTCUSDT"])))
                  1700000000600 [] in
  let e1 := Env three_listed 0 (λ _, true) (λ _, 0%nat) OpenDenied in
  let e2 := calm three_listed in
  let st1 := monitor_cycle e1 st in
  let st2 := monitor_startup true 0 (file st1) 1700000100000 in
  file st1 = file st ∧
  outbox (monitor_cycle e2 st1) = outbox st1 ∧
  text <$> drop (length (outbox st)) (outbox st1) =
    (λ p, message p "2023-11-14 22:13:20") <$> announced e1 st ∧
  text <$> drop (length (outbox st2)) (outbox (monitor_cycle e2 st2)) =
    (λ p, message p "2023-11-14 22:15:00") <$> announced e1 st.
Proof.
  intros st e1 e2 st1 st2.
  apply (restart_after_refused_save_repeats e1 e2 st true 0 1700000100000);
    [by_decide | reflexivity | reflexivity].
Defined.

Lemma batch_ms_lower e i n : 500 * Z.of_nat n ≤ batch_ms e i n.
Proof. revert i. induction n as [|n IH]; intros i; simpl; [lia|]. specialize (IH (S i)). lia. Qed.

(** X13. A pass lasts the time of the request, the time of its messages
    with a pause of half a second after each, and one polling interval:
    at least sixty seconds plus half a second per announcement. *)
Theorem pass_duration (e : env) (st : state) :
  let n := length (announced e st) in
  clock (monitor_cycle e st) =
    clock st + Z.of_nat (fetch_ms e) + batch_ms e 0 n + POLL_INTERVAL * 1000 ∧
  clock st + 500 * Z.of_nat n + 60000 ≤ clock (monitor_cycle e st).
Proof.
  intros n. destruct (monitor_cycle_announced e st) as (_ & _ & _ & Hc).
  split; [done|]. rewrite Hc. pose proof (batch_ms_lower e 0 n).
  unfold POLL_INTERVAL. fold n. lia.
Qed.

(** X14. From a document that is an object, [load_known_pairs] reads the
    [pairs] array and nothing else: other keys are ignored, and so are
    the order of the array and repeated entries. *)
Theorem load_reads_pairs_only (d : list (string * pyval)) (l : list string) :
  dict_get "pairs" d = Some (PList (PStr <$> l)) →
  load_known_pairs (Holds (Document (PDict d))) = list_to_set (HStr <$> l).
Proof.
  intros Hd. unfold load_known_pairs, try_load. simpl. rewrite Hd. simpl.
  unfold py_set.
  assert (hash_keys (PStr <$> l) = ok (HStr <$> l)) as ->; [|done].
  clear Hd. induction l as [|s r IH]; [done|]. rewrite !fmap_cons.
  cbn [hash_keys hash_key]. rewrite IH. done.
Qed.

Lemma load_reads_pairs_only_witness :
  load_known_pairs
    (Holds (Document (PDict [("version", PInt 1);
                             ("pairs", PList (PStr <$> ["B"; "A"; "B"]))]))) =
  list_to_set (HStr <$> ["B"; "A"; "B"]).
Proof. apply load_reads_pairs_only. reflexivity. Defined.

(** X15. Let the set in memory hold strings only and agree with the
    file.  After a pass that fetched strings only and saved on a working
    disk, a process restarted from the file knows what the old one knew,
    and on the same listing its first pass sends nothing and leaves the
    file alone. *)
Theorem restart_after_saved_pass_is_quiet (e1 e2 : env) (st : state)
  (taken : bool) (took : nat) (t1 : Z) :
  set_Forall is_str (known st) →
  load_known_pairs (file st) = known st →
  string_pass e1 →
  response e2 = response e1 →
  let st2 := monitor_startup taken took (file (monitor_cycle e1 st)) t1 in
  known st2 = known (monitor_cycle e1 st) ∧
  outbox (monitor_cycle e2 st2) = outbox st2 ∧
  file (monitor_cycle e2 st2) = file st2 ∧
  known (monitor_cycle e2 st2) = known st2.
Proof.
  intros Hs Hsync He Hr st2.
  destruct (string_pass_in_sync e1 st He Hs Hsync) as [_ Hsync1].
  assert (known st2 = known (monitor_cycle e1 st)) as Hk by exact Hsync1.
  split; [done|].
  destruct (monitor_cycle_silent e2 st2) as (? & ? & ? & _); [|done].
  rewrite (announced_ext e2 e2 (monitor_cycle e1 st) st2 eq_refl Hk).
  by apply announced_again.
Qed.

Lemma restart_after_saved_pass_is_quiet_witness :
  let st := State {[HStr "BTCUSDT"]}
                  (Holds (Document (snapshot [HStr "BTCUSDT"])))
                  1700000000600 [] in
  let e := calm three_listed in
  let st2 := monitor_startup true 0 (file (monitor_cycle e st)) 1700000100000 in
  known st2 = known (monitor_cycle e st) ∧
  outbox (monitor_cycle e st2) = outbox st2 ∧
  file (monitor_cycle e st2) = file st2 ∧
  known (monitor_cycle e st2) = known st2.
Proof.
  intros st e st2.
  apply (restart_after_saved_pass_is_quiet e e st true 0 1700000100000);
    [by_decide | by_decide | | reflexivity].
  split; [reflexivity|].
  vm_compute; repeat constructor; eexists; reflexivity.
Defined.
